(** * TaggedCache: a tag index over a flat key-value store

    Shallow embedding of [taggedcache.py].  The class keeps no state of its
    own: everything lives in the Redis database it is handed, one flat key
    space in which the primary entries (strings written with SET) and the
    index collections (sets named [CacheKeys], [Tags],
    [tags-by-key:<key>], [keys-by-tag:<tag>]) sit side by side.  The
    database is modelled as a finite map from key names to typed entries,
    the Redis commands the class issues as functions on that map, and each
    method of the class as a function from a database to a database and an
    outcome. *)

From Stdlib Require Import ZArith.
From stdpp Require Import gmap strings list fin_maps.

Local Open Scope string_scope.
Local Open Scope list_scope.

(** ** The store: the Redis commands used by the class

    The commands behave as the Redis command reference describes them:
    SET overwrites whatever the key held and clears its time to live;
    a set command on a key that holds a string, and GET on a key that
    holds a set, is refused with WRONGTYPE; a missing key reads as the
    empty set; a set is removed when its last member is; EXPIRE is
    refused when the timeout, added to the server's clock, does not fit
    the 64-bit milliseconds in which the server keeps times. *)

Module Redis.

(** A key holds a string or a set of strings. *)
Inductive rval :=
| RStr (v : string)
| RSet (ms : gset string).

(** An entry is a value with its optional time to live (seconds). *)
Record entry := Entry { val : rval; ttl : option Z }.

Abbreviation store := (gmap string entry).

(** What a command answers: a value, or an error reply of the server,
    which the client raises as an exception.  [WrongType] stands for
    every such reply: WRONGTYPE for a command on the wrong kind of key,
    and the out-of-range errors of EXPIRE. *)
Inductive reply (A : Type) :=
| Ok (a : A)
| WrongType.
Arguments Ok {A} a.
Arguments WrongType {A}.

Definition is_str (o : option entry) : bool :=
  match o with
  | Some (Entry (RStr _) _) => true
  | _ => false
  end.

(** GET *)
Definition get (n : string) (s : store) : reply (option string) :=
  match s !! n with
  | None => Ok None
  | Some (Entry (RStr v) _) => Ok (Some v)
  | Some (Entry (RSet _) _) => WrongType
  end.

(** EXISTS: true for an entry of either type. *)
Definition exists_ (n : string) (s : store) : bool :=
  match s !! n with
  | None => false
  | Some _ => true
  end.

(** SMEMBERS: a missing key reads as the empty set. *)
Definition smembers (n : string) (s : store) : reply (gset string) :=
  match s !! n with
  | None => Ok ∅
  | Some (Entry (RSet ms) _) => Ok ms
  | Some (Entry (RStr _) _) => WrongType
  end.

(** SCARD *)
Definition scard (n : string) (s : store) : reply nat :=
  match smembers n s with
  | Ok ms => Ok (size ms)
  | WrongType => WrongType
  end.

(** The clock of the server, in milliseconds since the epoch, when it
    runs a command. *)
Class Clock := now_ms : Z.

Definition LLONG_MAX : Z := 2 ^ 63 - 1.
Definition LLONG_MIN : Z := - 2 ^ 63.

(** Whether the server accepts a timeout of [t] seconds.  It converts
    the seconds to milliseconds and adds its clock, and answers with an
    error ("invalid expire time", or "not an integer or out of range"
    outside 64 bits) when either step would overflow; the quotients
    round towards zero, as C's do. *)
Definition expire_accepted {clk : Clock} (t : Z) : bool :=
  (Z.quot LLONG_MIN 1000 <=? t)%Z && (t <=? Z.quot LLONG_MAX 1000)%Z
  && (t * 1000 <=? LLONG_MAX - now_ms)%Z.

(** The commands the class writes with.  Each returns the new store and
    whether the server accepted the command; a refused command changes
    nothing. *)
Inductive cmd :=
| SADD (n m : string)
| SREM (n m : string)
| DEL (n : string)
| SET (n v : string)
| EXPIRE (n : string) (t : Z).

Definition run_cmd {clk : Clock} (c : cmd) (s : store) : store * bool :=
  match c with
  | SADD n m =>
      match s !! n with
      | None => (<[n := Entry (RSet {[m]}) None]> s, true)
      | Some (Entry (RSet ms) t) =>
          (<[n := Entry (RSet (ms ∪ {[m]})) t]> s, true)
      | Some (Entry (RStr _) _) => (s, false)
      end
  | SREM n m =>
      match s !! n with
      | None => (s, true)
      | Some (Entry (RSet ms) t) =>
          if decide (m ∈ ms) then
            (* a set that loses its last member is removed *)
            if decide (ms ∖ {[m]} = ∅) then (delete n s, true)
            else (<[n := Entry (RSet (ms ∖ {[m]})) t]> s, true)
          else (s, true)
      | Some (Entry (RStr _) _) => (s, false)
      end
  | DEL n => (delete n s, true)
  | SET n v => (<[n := Entry (RStr v) None]> s, true)
  | EXPIRE n t =>
      if expire_accepted t then
        match s !! n with
        | None => (s, true)
        | Some (Entry v _) =>
            (* a timeout that is not positive removes the key at once *)
            if decide (t <= 0)%Z then (delete n s, true)
            else (<[n := Entry v (Some t)]> s, true)
        end
      else (s, false)
  end.

(** A pipeline: the queued commands run in order when [execute] is
    called; a refused command does not stop the ones after it, and
    [execute] raises afterwards if any was refused. *)
Fixpoint execute {clk : Clock} (p : list cmd) (s : store) : store * bool :=
  match p with
  | [] => (s, true)
  | c :: p' =>
      let '(s1, ok1) := run_cmd c s in
      let '(s2, ok2) := execute p' s1 in
      (s2, ok1 && ok2)
  end.

(** A key that reaches its time to live is removed by the server, with
    no notice to anyone. *)
Definition expired (n : string) (s : store) : store := delete n s.

End Redis.

Import Redis.

(** ** The class *)

Module TaggedCache.

Definition CacheKeys : string := "CacheKeys".
Definition Tags : string := "Tags".
(** ["tags-by-key:%s" % key] and ["keys-by-tag:%s" % tag] *)
Definition tags_by_key (key : string) : string := "tags-by-key:" +:+ key.
Definition keys_by_tag (tag : string) : string := "keys-by-tag:" +:+ tag.

(** Python's truth value of the [ttl] argument: [None] and [0] are false. *)
Definition truthy (ttl : option Z) : bool :=
  match ttl with
  | Some t => negb (t =? 0)%Z
  | None => false
  end.

(** The outcome of a method: a value, or the exception the client
    raised.  The store is returned in both cases. *)
Definition result (A : Type) : Type := store * reply A.

Definition of_flag (r : store * bool) : result unit :=
  (r.1, if r.2 then Ok tt else WrongType).

(** [set]: the commands queued on the pipeline, in order. *)
Definition set_cmds (key value : string) (tags : list string)
    (ttl : option Z) : list cmd :=
  flat_map (fun tag =>
              [SADD (tags_by_key key) tag;
               SADD (keys_by_tag tag) key;
               SADD Tags tag]) tags
  ++ [SADD CacheKeys key; SET key value]
  ++ (if truthy ttl then [EXPIRE key (default 0%Z ttl)] else []).

Definition set {clk : Clock} (key value : string) (tags : list string)
    (ttl : option Z) (s : store) : result unit :=
  of_flag (execute (set_cmds key value tags ttl) s).

(** [gc]: the two arguments are [None] or a collection; [keys or []] makes
    [None] and the empty collection the same. *)
Definition gc_key_cmds (s : store) (key : string) : reply (list cmd) :=
  if exists_ key s then Ok []
  else
    match smembers (tags_by_key key) s with
    | Ok ts =>
        Ok ([SREM CacheKeys key]
            ++ map (fun tag => SREM (keys_by_tag tag) key) (elements ts)
            ++ [DEL (tags_by_key key)])
    | WrongType => WrongType
    end.

Definition gc_tag_cmds (s : store) (tag : string) : reply (list cmd) :=
  match scard (keys_by_tag tag) s with
  | Ok num_keys =>
      if decide (num_keys = 0) then
        Ok [SREM Tags tag; DEL (keys_by_tag tag)]
      else Ok []
  | WrongType => WrongType
  end.

(** Runs a loop body that reads the store and queues commands; the first
    read the server refuses raises. *)
Fixpoint queue_all (f : string -> reply (list cmd)) (l : list string)
    : reply (list cmd) :=
  match l with
  | [] => Ok []
  | x :: l' =>
      match f x with
      | Ok c =>
          match queue_all f l' with
          | Ok cs => Ok (c ++ cs)
          | WrongType => WrongType
          end
      | WrongType => WrongType
      end
  end.

(** The collection to sweep: the argument, or the whole root set when
    the argument is [None] or empty.  The client hands the members of a
    set over as a Python set, iterated in no particular order;
    [elements] fixes one, and nothing proved below depends on it. *)
Definition candidates (arg : option (list string)) (root : string)
    (s : store) : reply (list string) :=
  match default [] arg with
  | [] =>
      match smembers root s with
      | Ok ms => Ok (elements ms)
      | WrongType => WrongType
      end
  | l => Ok l
  end.

Definition gc {clk : Clock} (keys tags : option (list string)) (s : store)
    : result unit :=
  match candidates keys CacheKeys s with
  | WrongType => (s, WrongType)
  | Ok keys =>
      match candidates tags Tags s with
      | WrongType => (s, WrongType)
      | Ok tags =>
          match queue_all (gc_key_cmds s) keys with
          | WrongType => (s, WrongType)
          | Ok p1 =>
              match queue_all (gc_tag_cmds s) tags with
              | WrongType => (s, WrongType)
              | Ok p2 => of_flag (execute (p1 ++ p2) s)
              end
          end
      end
  end.

(** [get] *)
Definition get {clk : Clock} (key : string) (gc_flag : bool) (s : store)
    : result (option string) :=
  match Redis.get key s with
  | WrongType => (s, WrongType)
  | Ok value =>
      match value with
      | None =>
          if gc_flag then
            match gc (Some [key]) None s with
            | (s', Ok _) => (s', Ok None)
            | (s', WrongType) => (s', WrongType)
            end
          else (s, Ok None)
      | Some _ => (s, Ok value)
      end
  end.

Definition get_tags (key : string) (s : store) : reply (gset string) :=
  smembers (tags_by_key key) s.

Definition get_keys (tag : string) (s : store) : reply (gset string) :=
  smembers (keys_by_tag tag) s.

(** [clear] *)
Definition clear {clk : Clock} (key : string) (s : store) : result unit :=
  gc (Some [key]) None (execute [DEL key] s).1.

(** [clear_tag] *)
Definition clear_tag {clk : Clock} (tag : string) (s : store) : result unit :=
  match smembers (keys_by_tag tag) s with
  | WrongType => (s, WrongType)
  | Ok members =>
      let deleted_keys := elements members in
      let p := map DEL deleted_keys ++ [DEL (keys_by_tag tag)] in
      gc (Some deleted_keys) None (execute p s).1
  end.

(** [clear_all] *)
Definition clear_all {clk : Clock} (s : store) : result unit :=
  match smembers CacheKeys s with
  | WrongType => (s, WrongType)
  | Ok keys =>
      match smembers Tags s with
      | WrongType => (s, WrongType)
      | Ok tags =>
          let p :=
            flat_map (fun key => [DEL key; DEL (tags_by_key key)])
                     (elements keys)
            ++ map (fun tag => DEL (keys_by_tag tag)) (elements tags)
            ++ [DEL CacheKeys; DEL Tags] in
          of_flag (execute p s)
      end
  end.

End TaggedCache.

Import TaggedCache.

(** The clock at which the worked examples run: 3 November 2012, 10:00
    UTC. *)
Definition example_clock : Clock := 1351936800000%Z.

(** ** Notions used in the statements *)

#[global] Instance cmd_eq_dec : EqDecision cmd.
Proof. solve_decision. Defined.

(** The key a command works on. *)
Definition cmd_name (c : cmd) : string :=
  match c with
  | SADD n _ | SREM n _ | DEL n | SET n _ | EXPIRE n _ => n
  end.

(** Commands that only take away: SREM and DEL. *)
Definition shrinking (c : cmd) : Prop :=
  match c with
  | SREM _ _ | DEL _ => True
  | _ => False
  end.

(** The members a pipeline takes out of the set named [n]. *)
Fixpoint rems (n : string) (p : list cmd) : gset string :=
  match p with
  | [] => ∅
  | SREM n' m :: p' => if decide (n' = n) then {[m]} ∪ rems n p' else rems n p'
  | _ :: p' => rems n p'
  end.

(** What is left of an entry when the key is deleted ([d]) or loses the
    members [R]: a set that loses its last member is removed. *)
Definition shrink (d : bool) (R : gset string) (o : option entry)
    : option entry :=
  if d then None
  else
    match o with
    | Some (Entry (RSet ms) t) =>
        if decide (ms ## R) then o
        else if decide (ms ⊆ R) then None
        else Some (Entry (RSet (ms ∖ R)) t)
    | _ => o
    end.

(** The keys a sweep over the candidates [kl], [tl] deletes, and the
    members it takes out of each set: both are decided by reads of the
    store as it is before the pipeline runs. *)
Definition gc_dels (s : store) (kl tl : list string) (n : string) : Prop :=
  (exists key, key ∈ kl /\ exists_ key s = false /\ n = tags_by_key key) \/
  (exists tag, tag ∈ tl /\ scard (keys_by_tag tag) s = Ok 0 /\
               n = keys_by_tag tag).

Definition gc_rems (s : store) (kl tl : list string) (n m : string) : Prop :=
  (m ∈ kl /\ exists_ m s = false /\
   (n = CacheKeys \/
    exists tag ts, smembers (tags_by_key m) s = Ok ts /\ tag ∈ ts /\
                   n = keys_by_tag tag)) \/
  (m ∈ tl /\ scard (keys_by_tag m) s = Ok 0 /\ n = Tags).

(** Whether a name is one of the index names of the class. *)
Definition index_nameb (n : string) : bool :=
  String.eqb n CacheKeys || String.eqb n Tags
  || String.prefix "tags-by-key:" n || String.prefix "keys-by-tag:" n.

(** No key with an index name holds a string: no command of the class on
    an index collection is refused with WRONGTYPE. *)
Definition index_ok (s : store) : Prop :=
  map_Forall (fun n e => index_nameb n = true -> is_str (Some e) = false) s.

#[global] Instance index_ok_dec s : Decision (index_ok s).
Proof. unfold index_ok. apply _. Defined.

(** The members a pipeline adds to the set named [n]. *)
Fixpoint adds (n : string) (p : list cmd) : gset string :=
  match p with
  | [] => ∅
  | SADD n' m :: p' => if decide (n' = n) then {[m]} ∪ adds n p' else adds n p'
  | _ :: p' => adds n p'
  end.

(** The members of a set, read without raising. *)
Definition members (n : string) (s : store) : gset string :=
  match s !! n with
  | Some (Entry (RSet ms) _) => ms
  | _ => ∅
  end.

(** A name is accounted for when it is a root, a key listed in
    [CacheKeys] or its [tags-by-key] name, or the [keys-by-tag] name of a
    tag listed in [Tags]; [PK] and [PT] are the key and the tags that a
    running [set] is about to list. *)
Definition named (PK PT : string -> Prop) (s : store) (n : string) : Prop :=
  n = CacheKeys \/ n = Tags \/
  (exists k, (k ∈ members CacheKeys s \/ PK k) /\ (n = k \/ n = tags_by_key k)) \/
  (exists t, (t ∈ members Tags s \/ PT t) /\ n = keys_by_tag t).

Definition cov (PK PT : string -> Prop) (s : store) : Prop :=
  is_str (s !! CacheKeys) = false /\ is_str (s !! Tags) = false /\
  forall n, is_Some (s !! n) -> named PK PT s n.

(** Every entry of the store can be reached from the two root sets. *)
Definition covered (s : store) : Prop := cov (fun _ => False) (fun _ => False) s.

(** The shape of the commands [set] queues. *)
Definition set_cmd_ok (PK PT : string -> Prop) (c : cmd) : Prop :=
  match c with
  | SADD n _ =>
      n = CacheKeys \/ n = Tags \/
      (exists k, PK k /\ n = tags_by_key k) \/
      (exists t, PT t /\ n = keys_by_tag t)
  | SET n _ | EXPIRE n _ => PK n /\ n <> CacheKeys /\ n <> Tags
  | _ => False
  end.

(** Commands that cannot put a string under an index name and that the
    server accepts on a store whose index names hold sets: SADD on an
    index name, SET on another name, EXPIRE on another name with a
    timeout the server accepts. *)
Definition set_cmd_safe {clk : Clock} (c : cmd) : Prop :=
  match c with
  | SADD n _ => index_nameb n = true
  | SET n _ => index_nameb n = false
  | EXPIRE n t => index_nameb n = false /\ expire_accepted t = true
  | _ => False
  end.

(** What becomes of an entry on which a pipeline only runs SADD, with
    [A] the members added: a string stays (the commands are refused), a
    set gains [A], a missing key becomes the set [A] when something is
    added. *)
Definition grow (A : gset string) (o : option entry) : option entry :=
  match o with
  | Some (Entry (RStr _) _) => o
  | Some (Entry (RSet ms) t) => Some (Entry (RSet (ms ∪ A)) t)
  | None => if decide (A = ∅) then None else Some (Entry (RSet A) None)
  end.

(** The time to live recorded under a key, if any. *)
Definition ttl_of (o : option entry) : option Z :=
  match o with
  | Some e => ttl e
  | None => None
  end.

(** The two directions of the index agree: a tag is listed for a key
    exactly when the key is listed for the tag. *)
Definition linked (s : store) : Prop :=
  forall k t, t ∈ members (tags_by_key k) s <-> k ∈ members (keys_by_tag t) s.

(** Nothing is left to reconcile: every key listed in [CacheKeys] has an
    entry, and every tag listed in [Tags] has a key. *)
Definition settled (s : store) : Prop :=
  (forall k, k ∈ members CacheKeys s -> exists_ k s = true) /\
  (forall t, t ∈ members Tags s -> members (keys_by_tag t) s <> ∅).

#[global] Instance settled_dec s : Decision (settled s).
Proof.
  unfold settled. apply and_dec.
  - exact (set_Forall_dec (fun k => exists_ k s = true) (members CacheKeys s)).
  - exact (set_Forall_dec (fun t => members (keys_by_tag t) s <> ∅)
             (members Tags s)).
Defined.

(** A [set] call: key, value, tags, time to live. *)
Record set_call := SetCall {
  call_key : string;
  call_value : string;
  call_tags : list string;
  call_ttl : option Z
}.

(** A sequence of [set] calls, each run on the store the one before left. *)
Definition set_all {clk : Clock} (calls : list set_call) (s : store)
    : store :=
  foldl (fun s c =>
           (set (call_key c) (call_value c) (call_tags c) (call_ttl c) s).1)
        s calls.

(** ** Key names

    The four families of index names are pairwise distinct, and the two
    prefixed ones are injective in the key or tag they carry. *)

Section names.

Lemma tags_by_key_inj k1 k2 : tags_by_key k1 = tags_by_key k2 -> k1 = k2.
Proof. cbv [tags_by_key String.append]. congruence. Qed.

Lemma keys_by_tag_inj t1 t2 : keys_by_tag t1 = keys_by_tag t2 -> t1 = t2.
Proof. cbv [keys_by_tag String.append]. congruence. Qed.

Lemma tags_by_key_keys_by_tag k t : tags_by_key k <> keys_by_tag t.
Proof. cbv [tags_by_key  keys_by_tag String.append]. congruence. Qed.

Lemma tags_by_key_CacheKeys k : tags_by_key k <> CacheKeys.
Proof. cbv [tags_by_key  CacheKeys String.append]. congruence. Qed.

Lemma tags_by_key_Tags k : tags_by_key k <> Tags.
Proof. cbv [tags_by_key  Tags String.append]. congruence. Qed.

Lemma keys_by_tag_CacheKeys t : keys_by_tag t <> CacheKeys.
Proof. cbv [keys_by_tag  CacheKeys String.append]. congruence. Qed.

Lemma keys_by_tag_Tags t : keys_by_tag t <> Tags.
Proof. cbv [keys_by_tag  Tags String.append]. congruence. Qed.

Lemma CacheKeys_Tags : CacheKeys <> Tags.
Proof. cbv [CacheKeys Tags]. congruence. Qed.

Lemma length_append (a b : string) :
  String.length (a +:+ b) = String.length a + String.length b.
Proof. induction a as [|c a IH]; cbn -[String.append];
    cbv [String.append]; fold String.append; cbn; [done | by rewrite IH]. Qed.

(** A key is never its own [tags-by-key] name. *)
Lemma tags_by_key_self k : tags_by_key k <> k.
Proof.
  intros H. apply (f_equal String.length) in H.
  unfold tags_by_key in H. rewrite length_append in H. cbn in H. lia.
Qed.

End names.

Create HintDb names.

#[local] Hint Resolve tags_by_key_keys_by_tag tags_by_key_CacheKeys
  tags_by_key_Tags keys_by_tag_CacheKeys keys_by_tag_Tags CacheKeys_Tags
  tags_by_key_self : names.

Lemma prefix_append a b : String.prefix a (a +:+ b) = true.
Proof.
  induction a as [|c a IH]; cbv [String.append]; fold String.append; cbn.
  - by destruct b.
  - destruct (Ascii.ascii_dec c c); done.
Qed.

Lemma index_nameb_CacheKeys : index_nameb CacheKeys = true.
Proof. done. Qed.

Lemma index_nameb_Tags : index_nameb Tags = true.
Proof. done. Qed.

Lemma index_nameb_tags_by_key k : index_nameb (tags_by_key k) = true.
Proof.
  unfold index_nameb, tags_by_key. rewrite prefix_append.
  by rewrite orb_true_r.
Qed.

Lemma index_nameb_keys_by_tag t : index_nameb (keys_by_tag t) = true.
Proof.
  unfold index_nameb, keys_by_tag. rewrite prefix_append.
  by rewrite orb_true_r.
Qed.

#[local] Hint Resolve index_nameb_CacheKeys index_nameb_Tags
  index_nameb_tags_by_key index_nameb_keys_by_tag : names.

(** Closes a goal in which two names of different families are equated. *)
Ltac clash :=
  repeat intro; exfalso;
  repeat match goal with
    | H : @eq string _ _ |- _ =>
        progress cbv [tags_by_key keys_by_tag CacheKeys Tags String.append] in H
    end;
  congruence.

Section with_clock_1.

Context {clk : Clock}.

(** ** Pipelines *)

Lemma execute_cons c p s :
  execute (c :: p) s =
  ((execute p (run_cmd c s).1).1, (run_cmd c s).2 && (execute p (run_cmd c s).1).2).
Proof. cbn. destruct (run_cmd c s), (execute p _); done. Qed.

Lemma execute_app p q s :
  execute (p ++ q) s =
  ((execute q (execute p s).1).1, (execute p s).2 && (execute q (execute p s).1).2).
Proof.
  revert s. induction p as [|c p IH]; intros s.
  - cbn. by destruct (execute q s).
  - rewrite <- app_comm_cons, !execute_cons, IH. cbn.
    by rewrite andb_assoc.
Qed.

Lemma run_cmd_other c s n :
  cmd_name c <> n -> (run_cmd c s).1 !! n = s !! n.
Proof.
  intros Hn. destruct c as [n' m|n' m|n'|n' v|n' t]; cbn in *.
  - destruct (s !! n') as [[[|] ?]|]; cbn; by rewrite ?lookup_insert_ne.
  - destruct (s !! n') as [[[|] ?]|]; cbn; try done.
    repeat case_decide; cbn;
      by rewrite ?lookup_insert_ne, ?lookup_delete_ne.
  - by rewrite lookup_delete_ne.
  - by rewrite lookup_insert_ne.
  - destruct (expire_accepted t); [|done].
    destruct (s !! n') as [[? ?]|]; cbn; try done.
    case_decide; cbn; by rewrite ?lookup_insert_ne, ?lookup_delete_ne.
Qed.

Lemma execute_other p s n :
  Forall (fun c => cmd_name c <> n) p -> (execute p s).1 !! n = s !! n.
Proof.
  revert s. induction p as [|c p IH]; intros s Hp; [done|].
  inversion_clear Hp. rewrite execute_cons. cbn.
  rewrite IH by done. by apply run_cmd_other.
Qed.

(** *** Pipelines that only remove

    [gc], [clear], [clear_tag] and [clear_all] queue nothing but SREM and
    DEL.  What such a pipeline does to one key depends only on whether
    the key is deleted and on which members are taken out of it, not on
    the order of the commands. *)

Lemma elem_of_rems n m p : m ∈ rems n p <-> SREM n m ∈ p.
Proof.
  induction p as [|c p IH]; cbn.
  - set_solver.
  - rewrite elem_of_cons.
    destruct c as [n' m'|n' m'|n'|n' v|n' t]; try (rewrite IH; intuition congruence).
    case_decide as Hn; [subst n'|];
      rewrite ?elem_of_union, ?elem_of_singleton, IH; intuition congruence.
Qed.

Lemma rems_app n p q : rems n (p ++ q) = rems n p ∪ rems n q.
Proof.
  apply set_eq. intros m.
  rewrite elem_of_union, !elem_of_rems, elem_of_app. done.
Qed.

Lemma shrink_ext d d' R R' o :
  d = d' -> (forall m, m ∈ R <-> m ∈ R') -> shrink d R o = shrink d' R' o.
Proof. intros -> HR. by assert (R = R') as -> by by apply set_eq. Qed.

Lemma shrink_none d R : shrink d R None = None.
Proof. by destruct d. Qed.

Lemma shrink_id o : shrink false ∅ o = o.
Proof.
  destruct o as [[[v|ms] t]|]; cbn; try done.
  case_decide as H; [done|]. exfalso. apply H. set_solver.
Qed.

Lemma shrink_str d R v t :
  shrink d R (Some (Entry (RStr v) t)) =
  if d then None else Some (Entry (RStr v) t).
Proof. done. Qed.

Lemma shrink_step c p s n :
  shrinking c ->
  shrink (bool_decide (DEL n ∈ p)) (rems n p) ((run_cmd c s).1 !! n) =
  shrink (bool_decide (DEL n ∈ c :: p)) (rems n (c :: p)) (s !! n).
Proof.
  intros Hc. destruct (decide (cmd_name c = n)) as [Hn|Hn].
  - destruct c as [| n' m | n' | |]; try done; cbn in Hn; subst n'.
    + (* SREM n m *)
      assert (bool_decide (DEL n ∈ SREM n m :: p) = bool_decide (DEL n ∈ p))
        as -> by (apply bool_decide_ext; rewrite elem_of_cons; naive_solver).
      cbn [rems run_cmd]. rewrite decide_True by done.
      destruct (bool_decide (DEL n ∈ p)); [done|].
      destruct (s !! n) as [[[v|ms] t]|] eqn:Hs; cbn; rewrite ?Hs; try done.
      destruct (decide (m ∈ ms)) as [Hm|Hm].
      * destruct (decide (ms ∖ {[m]} = ∅)) as [He|He]; cbn.
        -- rewrite lookup_delete_eq. cbn.
           rewrite decide_False by set_solver. rewrite decide_True; [done|].
           intros x Hx. destruct (decide (x = m)); set_solver.
        -- rewrite lookup_insert_eq. cbn.
           apply set_choose_L in He as [x Hx].
           rewrite (decide_False (P := ms ## _)) by set_solver.
           destruct (decide (ms ∖ {[m]} ## rems n p)) as [Hd|Hd].
           ++ rewrite decide_False by set_solver.
              do 3 f_equal. set_solver.
           ++ destruct (decide (ms ∖ {[m]} ⊆ rems n p)) as [Hsub|Hsub].
              ** rewrite decide_True; [done|].
                 intros y Hy. destruct (decide (y = m)); set_solver.
              ** rewrite decide_False; [do 3 f_equal; set_solver|].
                 intros Hsub'. apply Hsub. set_solver.
      * cbn. rewrite Hs. cbn.
        destruct (decide (ms ## rems n p)) as [Hd|Hd].
        -- rewrite decide_True by set_solver. done.
        -- rewrite (decide_False (P := ms ## {[m]} ∪ rems n p));
             [|intros Hd'; apply Hd; set_solver].
           destruct (decide (ms ⊆ rems n p)) as [Hsub|Hsub].
           ++ rewrite decide_True by set_solver. done.
           ++ rewrite decide_False; [do 3 f_equal; set_solver|].
              intros Hsub'. apply Hsub. set_solver.
    + (* DEL n *)
      cbn. rewrite lookup_delete_eq, shrink_none.
      rewrite bool_decide_true by (apply elem_of_cons; by left). done.
  - rewrite run_cmd_other by done. apply shrink_ext.
    + apply bool_decide_ext. rewrite elem_of_cons.
      split; [by right|]. intros [Heq|?]; [|done]. subst c. by cbn in Hn.
    + intros m. rewrite !elem_of_rems, elem_of_cons.
      split; [by right|]. intros [Heq|?]; [|done]. subst c. by cbn in Hn.
Qed.

(** What a removing pipeline leaves under each key. *)
Lemma execute_shrink p s n :
  Forall shrinking p ->
  (execute p s).1 !! n =
  shrink (bool_decide (DEL n ∈ p)) (rems n p) (s !! n).
Proof.
  revert s. induction p as [|c p IH]; intros s Hp.
  - cbn. rewrite bool_decide_false by set_solver. by rewrite shrink_id.
  - inversion_clear Hp. rewrite execute_cons. cbn [fst].
    rewrite IH by done. by apply shrink_step.
Qed.

(** A removing command never turns a key into a string. *)
Lemma shrink_is_str d R o : is_str (shrink d R o) = true -> is_str o = true.
Proof.
  destruct d; [done|]. destruct o as [[[v|ms] t]|]; cbn; try done.
  repeat case_decide; done.
Qed.

(** A removing pipeline is refused nowhere when no SREM meets a string. *)
Lemma execute_shrink_ok p s :
  Forall shrinking p ->
  (forall n m, SREM n m ∈ p -> is_str (s !! n) = false) ->
  (execute p s).2 = true.
Proof.
  revert s. induction p as [|c p IH]; intros s Hp Hs; [done|].
  inversion_clear Hp as [|? ? Hc Hp']. rewrite execute_cons. cbn [snd].
  apply andb_true_intro. split.
  - destruct c as [| n m | n | |]; try done. cbn.
    specialize (Hs n m ltac:(left)).
    destruct (s !! n) as [[[v|ms] t]|]; try done.
    by repeat case_decide.
  - apply IH; [done|]. intros n m Hin.
    specialize (Hs n m ltac:(by right)).
    destruct (is_str ((run_cmd c s).1 !! n)) eqn:Hstr; [|done].
    pose proof (shrink_step c [] s n Hc) as Hstep.
    cbn [rems] in Hstep. rewrite bool_decide_false in Hstep by set_solver.
    rewrite shrink_id in Hstep. rewrite Hstep in Hstr.
    apply shrink_is_str in Hstr. congruence.
Qed.

(** ** The sweep *)

Lemma queue_all_elem f l p c :
  queue_all f l = Ok p ->
  c ∈ p <-> exists x cs, x ∈ l /\ f x = Ok cs /\ c ∈ cs.
Proof.
  revert p. induction l as [|x l IH]; intros p; cbn.
  - intros [= <-]. split; [set_solver|]. intros (x & cs & Hx & _). set_solver.
  - destruct (f x) as [cs|] eqn:Hfx; [|done].
    destruct (queue_all f l) as [p'|]; [|done]. intros [= <-].
    rewrite elem_of_app, (IH p' eq_refl). split.
    + intros [Hc|(y & cs' & Hy & Hfy & Hc)].
      * exists x, cs. set_solver.
      * exists y, cs'. set_solver.
    + intros (y & cs' & Hy & Hfy & Hc).
      apply elem_of_cons in Hy as [ -> |Hy].
      * left. congruence.
      * right. eauto.
Qed.

Lemma queue_all_is_Ok f l :
  (forall x, x ∈ l -> exists cs, f x = Ok cs) -> exists p, queue_all f l = Ok p.
Proof.
  induction l as [|x l IH]; intros Hf; cbn; [eauto|].
  destruct (Hf x ltac:(left)) as [cs ->].
  destruct IH as [p ->]; [|eauto]. intros y Hy. apply Hf. by right.
Qed.

Lemma queue_all_each f l p x :
  queue_all f l = Ok p -> x ∈ l -> exists cs, f x = Ok cs.
Proof.
  revert p. induction l as [|y l IH]; intros p Hp Hx; [set_solver|].
  cbn in Hp. destruct (f y) as [cs|] eqn:Hfy; [|done].
  destruct (queue_all f l) as [p'|]; [|done].
  apply elem_of_cons in Hx as [ -> |Hx]; eauto.
Qed.

Lemma gc_key_cmds_elem s key cs c :
  gc_key_cmds s key = Ok cs ->
  c ∈ cs <->
  exists_ key s = false /\
  (c = SREM CacheKeys key \/
   (exists tag ts, smembers (tags_by_key key) s = Ok ts /\ tag ∈ ts /\
                   c = SREM (keys_by_tag tag) key) \/
   c = DEL (tags_by_key key)).
Proof.
  unfold gc_key_cmds. destruct (exists_ key s).
  - intros [= <-]. split; [set_solver|]. by intros [? _].
  - destruct (smembers (tags_by_key key) s) as [ts|] eqn:Hts; [|done].
    intros [= <-].
    rewrite elem_of_cons, elem_of_app, list_elem_of_fmap, list_elem_of_singleton.
    split.
    + intros [ -> |[(tag & -> & Htag)| -> ]]; split; try done; eauto.
      right; left. exists tag, ts. by rewrite elem_of_elements in Htag.
    + intros [_ [ -> |[(tag & ts' & [= <-] & Htag & ->)| -> ]]]; eauto.
      right; left. exists tag. by rewrite elem_of_elements.
Qed.

Lemma gc_tag_cmds_elem s tag cs c :
  gc_tag_cmds s tag = Ok cs ->
  c ∈ cs <->
  scard (keys_by_tag tag) s = Ok 0 /\
  (c = SREM Tags tag \/ c = DEL (keys_by_tag tag)).
Proof.
  unfold gc_tag_cmds. destruct (scard (keys_by_tag tag) s) as [num|]; [|done].
  case_decide as Hnum; intros [= <-].
  - subst num. rewrite elem_of_cons, list_elem_of_singleton. naive_solver.
  - split; [set_solver|]. intros [Heq _]. congruence.
Qed.

Section sweep.

Variables (s : store) (kl tl : list string) (p1 p2 : list cmd).
Hypothesis Hp1 : queue_all (gc_key_cmds s) kl = Ok p1.
Hypothesis Hp2 : queue_all (gc_tag_cmds s) tl = Ok p2.

Lemma gc_pipeline_DEL n : DEL n ∈ p1 ++ p2 <-> gc_dels s kl tl n.
Proof.
  rewrite elem_of_app, (queue_all_elem _ _ _ _ Hp1),
    (queue_all_elem _ _ _ _ Hp2). unfold gc_dels. split.
  - intros [(key & cs & Hk & Hcs & Hc)|(tag & cs & Ht & Hcs & Hc)].
    + apply (gc_key_cmds_elem _ _ _ _ Hcs) in Hc as [Hex Hc]. left.
      destruct Hc as [?|[(? & ? & ? & ? & ?)|[= ->]]]; try done. eauto.
    + apply (gc_tag_cmds_elem _ _ _ _ Hcs) in Hc as [Hex Hc]. right.
      destruct Hc as [?|[= ->]]; try done. eauto.
  - intros [(key & Hk & Hex & ->)|(tag & Ht & Hcard & ->)].
    + left.
      destruct (queue_all_each _ _ _ _ Hp1 Hk) as [cs Hcs].
      exists key, cs. split_and!; try done.
      apply (gc_key_cmds_elem _ _ _ _ Hcs). eauto.
    + right.
      assert (exists cs, gc_tag_cmds s tag = Ok cs) as [cs Hcs].
      { unfold gc_tag_cmds. rewrite Hcard. cbn. eauto. }
      exists tag, cs. split_and!; try done.
      apply (gc_tag_cmds_elem _ _ _ _ Hcs). eauto.
Qed.

End sweep.

Section sweep_rems.

Variables (s : store) (kl tl : list string) (p1 p2 : list cmd).
Hypothesis Hp1 : queue_all (gc_key_cmds s) kl = Ok p1.
Hypothesis Hp2 : queue_all (gc_tag_cmds s) tl = Ok p2.

Lemma gc_pipeline_SREM n m : SREM n m ∈ p1 ++ p2 <-> gc_rems s kl tl n m.
Proof.
  rewrite elem_of_app, (queue_all_elem _ _ _ _ Hp1),
    (queue_all_elem _ _ _ _ Hp2). unfold gc_rems. split.
  - intros [(key & cs & Hk & Hcs & Hc)|(tag & cs & Ht & Hcs & Hc)].
    + apply (gc_key_cmds_elem _ _ _ _ Hcs) in Hc as [Hex Hc]. left.
      destruct Hc as [[= -> ->]|[(tag & ts & Hts & Htag & [= -> ->])|?]];
        try done; eauto 10.
    + apply (gc_tag_cmds_elem _ _ _ _ Hcs) in Hc as [Hex Hc]. right.
      destruct Hc as [[= -> ->]|?]; try done.
  - intros [(Hk & Hex & Hn)|(Ht & Hcard & ->)].
    + left. destruct (queue_all_each _ _ _ _ Hp1 Hk) as [cs Hcs].
      exists m, cs. split_and!; try done.
      apply (gc_key_cmds_elem _ _ _ _ Hcs). split; [done|].
      destruct Hn as [ -> |(tag & ts & Hts & Htag & ->)]; eauto 10.
    + right.
      assert (exists cs, gc_tag_cmds s m = Ok cs) as [cs Hcs].
      { unfold gc_tag_cmds. rewrite Hcard. cbn. eauto. }
      exists m, cs. split_and!; try done.
      apply (gc_tag_cmds_elem _ _ _ _ Hcs). eauto.
Qed.

Lemma gc_pipeline_shrinking : Forall shrinking (p1 ++ p2).
Proof.
  apply Forall_forall. intros c Hc.
  apply elem_of_app in Hc as [Hc|Hc].
  - apply (queue_all_elem _ _ _ _ Hp1) in Hc as (key & cs & _ & Hcs & Hc).
    apply (gc_key_cmds_elem _ _ _ _ Hcs) in Hc as [_ Hc].
    destruct Hc as [ -> |[(tag & ts & _ & _ & ->)| -> ]]; done.
  - apply (queue_all_elem _ _ _ _ Hp2) in Hc as (tag & cs & _ & Hcs & Hc).
    apply (gc_tag_cmds_elem _ _ _ _ Hcs) in Hc as [_ Hc].
    destruct Hc as [ -> | -> ]; done.
Qed.

(** The store after the pipeline of a sweep, key by key. *)
Lemma gc_pipeline_lookup n d R :
  (d = true <-> gc_dels s kl tl n) ->
  (forall m, m ∈ R <-> gc_rems s kl tl n m) ->
  (execute (p1 ++ p2) s).1 !! n = shrink d R (s !! n).
Proof.
  intros Hd HR. rewrite execute_shrink by apply gc_pipeline_shrinking.
  apply shrink_ext.
  - destruct d.
    + apply bool_decide_eq_true.
      apply (gc_pipeline_DEL _ _ _ _ _ Hp1 Hp2). by apply Hd.
    + apply bool_decide_eq_false.
      rewrite (gc_pipeline_DEL _ _ _ _ _ Hp1 Hp2). intros H.
      apply Hd in H. done.
  - intros m. rewrite elem_of_rems, gc_pipeline_SREM. symmetry. apply HR.
Qed.

End sweep_rems.

(** [gc] either stops at a read the server refuses, leaving the store as it
    was, or runs the pipeline it has queued. *)
Lemma gc_cases keys tags s :
  gc keys tags s = (s, WrongType) \/
  exists kl tl p1 p2,
    candidates keys CacheKeys s = Ok kl /\
    candidates tags Tags s = Ok tl /\
    queue_all (gc_key_cmds s) kl = Ok p1 /\
    queue_all (gc_tag_cmds s) tl = Ok p2 /\
    gc keys tags s = of_flag (execute (p1 ++ p2) s).
Proof.
  unfold gc.
  destruct (candidates keys CacheKeys s) as [kl|]; [|by left].
  destruct (candidates tags Tags s) as [tl|]; [|by left].
  destruct (queue_all (gc_key_cmds s) kl) as [p1|] eqn:Hp1; [|by left].
  destruct (queue_all (gc_tag_cmds s) tl) as [p2|] eqn:Hp2; [|by left].
  right. by exists kl, tl, p1, p2.
Qed.

(** ** Stores whose index names hold sets *)

Lemma index_ok_lookup s n :
  index_ok s -> index_nameb n = true -> is_str (s !! n) = false.
Proof.
  intros Hs Hn. destruct (s !! n) as [e|] eqn:He; [|done].
  by apply (Hs n e).
Qed.

Lemma smembers_is_Ok n s :
  is_str (s !! n) = false -> exists ms, smembers n s = Ok ms.
Proof.
  unfold smembers. destruct (s !! n) as [[[v|ms] t]|]; cbn; eauto. done.
Qed.

Lemma smembers_is_str n s ms : smembers n s = Ok ms -> is_str (s !! n) = false.
Proof.
  unfold smembers. by destruct (s !! n) as [[[v|ms'] t]|].
Qed.

Lemma candidates_is_Ok arg root s :
  is_str (s !! root) = false -> exists l, candidates arg root s = Ok l.
Proof.
  intros Hr. unfold candidates. destruct (default [] arg); [|eauto].
  destruct (smembers_is_Ok _ _ Hr) as [ms ->]. eauto.
Qed.

(** On such a store a sweep meets no refusal. *)
Lemma gc_index_ok keys tags s :
  index_ok s ->
  exists kl tl p1 p2,
    candidates keys CacheKeys s = Ok kl /\
    candidates tags Tags s = Ok tl /\
    queue_all (gc_key_cmds s) kl = Ok p1 /\
    queue_all (gc_tag_cmds s) tl = Ok p2 /\
    gc keys tags s = ((execute (p1 ++ p2) s).1, Ok tt).
Proof.
  intros Hs.
  destruct (candidates_is_Ok keys CacheKeys s) as [kl Hkl];
    [apply index_ok_lookup; auto with names|].
  destruct (candidates_is_Ok tags Tags s) as [tl Htl];
    [apply index_ok_lookup; auto with names|].
  destruct (queue_all_is_Ok (gc_key_cmds s) kl) as [p1 Hp1].
  { intros key _. unfold gc_key_cmds. destruct (exists_ key s); [eauto|].
    destruct (smembers_is_Ok (tags_by_key key) s) as [ts ->]; [|eauto].
    apply index_ok_lookup; auto with names. }
  destruct (queue_all_is_Ok (gc_tag_cmds s) tl) as [p2 Hp2].
  { intros tag _. unfold gc_tag_cmds, scard.
    destruct (smembers_is_Ok (keys_by_tag tag) s) as [ts ->];
      [apply index_ok_lookup; auto with names|].
    case_decide; eauto. }
  exists kl, tl, p1, p2. split_and!; try done.
  unfold gc. rewrite Hkl, Htl, Hp1, Hp2. unfold of_flag.
  rewrite execute_shrink_ok; [done|by eapply gc_pipeline_shrinking|].
  intros n m Hin. apply index_ok_lookup; [done|].
  apply (gc_pipeline_SREM _ _ _ _ _ Hp1 Hp2) in Hin.
  destruct Hin as [(_ & _ & [ -> |(tag & ts & _ & _ & ->)])|(_ & _ & ->)];
    auto with names.
Qed.

Lemma index_ok_shrink s s' :
  index_ok s ->
  (forall n, exists d R, s' !! n = shrink d R (s !! n)) ->
  index_ok s'.
Proof.
  intros Hs Hshr n e He Hn. destruct (Hshr n) as (d & R & Hl).
  destruct (is_str (Some e)) eqn:Hstr; [|done].
  rewrite <- He, Hl in Hstr. apply shrink_is_str in Hstr.
  by rewrite (index_ok_lookup s n) in Hstr.
Qed.

Lemma index_ok_execute p s :
  Forall shrinking p -> index_ok s -> index_ok (execute p s).1.
Proof.
  intros Hp Hs. apply (index_ok_shrink s); [done|]. intros n.
  eexists _, _. by apply execute_shrink.
Qed.

Lemma index_ok_gc keys tags s : index_ok s -> index_ok (gc keys tags s).1.
Proof.
  intros Hs. destruct (gc_index_ok keys tags s Hs)
    as (kl & tl & p1 & p2 & _ & _ & Hp1 & Hp2 & ->).
  apply index_ok_execute; [|done]. by eapply gc_pipeline_shrinking.
Qed.

Lemma smembers_shrink n (s s' : store) d R ms :
  smembers n s = Ok ms ->
  s' !! n = shrink d R (s !! n) ->
  smembers n s' = Ok (if d then ∅ else ms ∖ R).
Proof.
  unfold smembers, shrink. intros Hms ->. destruct d; [done|].
  destruct (s !! n) as [[[v|ms'] t]|]; simplify_eq.
  - repeat case_decide; f_equal; set_solver.
  - f_equal. set_solver.
Qed.

(** * The claims *)

(** ** C8: a read with [gc=False] changes nothing *)

(** A read with [gc=False] never changes the store, found or not. *)
Lemma get_without_gc_store (k : string) (s : store) :
  (TaggedCache.get k false s).1 = s.
Proof.
  unfold TaggedCache.get. by destruct (Redis.get k s) as [[v|]|].
Qed.

(** C8.  For every key whose primary entry is absent, [get(k, gc=False)]
    returns the not-found value [None] and hands back the store exactly
    as it found it. *)
Theorem get_without_gc_is_pure (k : string) (s : store) :
  s !! k = None -> TaggedCache.get k false s = (s, Ok None).
Proof. intros Hk. unfold TaggedCache.get, Redis.get. by rewrite Hk. Qed.

End with_clock_1.

Section example_2.

#[local] Existing Instance example_clock.

Lemma get_without_gc_is_pure_witness :
  TaggedCache.get "ExpireMe" false
    (expired "ExpireMe" (set "ExpireMe" "foo" [] (Some 1%Z) ∅).1)
  = (expired "ExpireMe" (set "ExpireMe" "foo" [] (Some 1%Z) ∅).1, Ok None).
Proof. apply get_without_gc_is_pure. vm_compute. reflexivity. Defined.

End example_2.

Section with_clock_3.

Context {clk : Clock}.

(** ** What a sweep and [clear_tag] leave absent *)

(** A sweep creates nothing. *)
Lemma gc_keeps_absent keys tags (s : store) n :
  s !! n = None -> (gc keys tags s).1 !! n = None.
Proof.
  intros Hn.
  destruct (gc_cases keys tags s)
    as [ -> |(kl & tl & p1 & p2 & _ & _ & Hp1 & Hp2 & ->)]; [done|].
  cbn [of_flag fst].
  rewrite execute_shrink by (by eapply gc_pipeline_shrinking).
  by rewrite Hn, shrink_none.
Qed.

(** In any store, [clear_tag] leaves no entry under the members it read
    from the tag's key set, nor under the key set itself. *)
Lemma clear_tag_deletes_members tag (s : store) ms :
  get_keys tag s = Ok ms ->
  (forall k, k ∈ ms -> (clear_tag tag s).1 !! k = None) /\
  (clear_tag tag s).1 !! keys_by_tag tag = None.
Proof.
  intros Hms. unfold get_keys in Hms. unfold clear_tag. rewrite Hms.
  set (p := _ ++ _).
  assert (Forall shrinking p) as Hshr.
  { apply Forall_app. split; [|by repeat constructor].
    apply Forall_forall. intros c Hc.
    apply list_elem_of_fmap in Hc as (k & -> & _). done. }
  assert (forall n, DEL n ∈ p -> (execute p s).1 !! n = None) as Hdel.
  { intros n Hn. rewrite execute_shrink by done.
    by rewrite bool_decide_true. }
  split.
  - intros k Hk. apply gc_keeps_absent, Hdel. subst p.
    apply elem_of_app. left. apply list_elem_of_fmap. exists k.
    by rewrite elem_of_elements.
  - apply gc_keeps_absent, Hdel. subst p. apply elem_of_app. right.
    by apply list_elem_of_singleton.
Qed.


(** ** C9: a sweep never touches a primary entry *)

(** A sweep deletes a key only after reading it as a set. *)
Lemma gc_dels_not_str s kl tl p1 n :
  queue_all (gc_key_cmds s) kl = Ok p1 ->
  gc_dels s kl tl n -> is_str (s !! n) = false.
Proof.
  intros Hp1 [(key & Hk & Hex & ->)|(tag & Ht & Hcard & ->)].
  - destruct (queue_all_each _ _ _ _ Hp1 Hk) as [cs Hcs].
    unfold gc_key_cmds in Hcs. rewrite Hex in Hcs.
    destruct (smembers (tags_by_key key) s) as [ts|] eqn:Hts; [|done].
    by eapply smembers_is_str.
  - unfold scard in Hcard.
    destruct (smembers (keys_by_tag tag) s) as [ts|] eqn:Hts; [|done].
    by eapply smembers_is_str.
Qed.

(** C9.  Whatever the store and the [keys] and [tags] arguments, every
    entry that holds a string before [gc] holds the same string, with the
    same time to live, after it: the sweep only takes members out of sets
    and deletes keys it has read as sets (or found missing). *)
Theorem gc_keeps_primary_entries (s : store) (keys tags : option (list string))
    (n v : string) (t : option Z) :
  s !! n = Some (Entry (RStr v) t) ->
  (gc keys tags s).1 !! n = Some (Entry (RStr v) t).
Proof.
  intros Hn.
  destruct (gc_cases keys tags s)
    as [->|(kl & tl & p1 & p2 & _ & _ & Hp1 & Hp2 & ->)]; [done|].
  cbn [of_flag fst].
  rewrite (gc_pipeline_lookup s kl tl p1 p2 Hp1 Hp2 n false
             (rems n (p1 ++ p2))).
  - by rewrite Hn.
  - split; [done|]. intros Hd.
    apply (gc_dels_not_str _ _ _ _ _ Hp1) in Hd. by rewrite Hn in Hd.
  - intros m. rewrite elem_of_rems. by apply gc_pipeline_SREM.
Qed.

End with_clock_3.

Section example_6.

#[local] Existing Instance example_clock.

Lemma gc_keeps_primary_entries_witness :
  let s := expired "Post:1"
             (set "Post:2" "again" ["Post"] None
                (set "Post:1" "Hello" ["Post"] None ∅).1).1 in
  (gc None None s).1 !! "Post:2" = Some (Entry (RStr "again") None).
Proof.
  apply gc_keeps_primary_entries. vm_compute. reflexivity.
Defined.

End example_6.

Section with_clock_7.

Context {clk : Clock}.

(** ** C7: a read that misses runs a sweep for its key *)

Lemma scard_0 n s : scard n s = Ok 0 <-> smembers n s = Ok ∅.
Proof.
  unfold scard. destruct (smembers n s) as [ms|]; [|done]. split.
  - intros [= Hsz]. apply size_empty_iff in Hsz. f_equal. set_solver.
  - intros [= ->]. by rewrite size_empty.
Qed.

Lemma candidates_Some_cons x l root s :
  candidates (Some (x :: l)) root s = Ok (x :: l).
Proof. done. Qed.

Lemma candidates_None root s ms :
  smembers root s = Ok ms -> candidates None root s = Ok (elements ms).
Proof. unfold candidates. cbn. by intros ->. Qed.

(** What the sweep for one key [k] may delete or take out. *)
Lemma gc_one_dels s k tl n :
  gc_dels s [k] tl n ->
  n = tags_by_key k \/
  exists tag, tag ∈ tl /\ smembers (keys_by_tag tag) s = Ok ∅ /\
              n = keys_by_tag tag.
Proof.
  intros [(key & Hk & _ & ->)|(tag & Ht & Hcard & ->)].
  - left. apply list_elem_of_singleton in Hk. by subst.
  - right. exists tag. by rewrite <- scard_0.
Qed.

Lemma gc_one_rems s k tl n m :
  gc_rems s [k] tl n m ->
  (m = k /\ (n = CacheKeys \/ exists tag, n = keys_by_tag tag)) \/
  (m ∈ tl /\ smembers (keys_by_tag m) s = Ok ∅ /\ n = Tags).
Proof.
  intros [(Hk & _ & Hn)|(Ht & Hcard & ->)].
  - left. apply list_elem_of_singleton in Hk. split; [done|].
    destruct Hn as [?|(tag & ? & _ & _ & ?)]; eauto.
  - right. by rewrite <- scard_0.
Qed.


End with_clock_7.

Section example_8.

#[local] Existing Instance example_clock.



End example_8.

Section with_clock_9.

Context {clk : Clock}.

(** ** C1: the full sweep *)

Lemma index_nameb_false n :
  index_nameb n = false ->
  n <> CacheKeys /\ n <> Tags /\
  (forall k, n <> tags_by_key k) /\ (forall t, n <> keys_by_tag t).
Proof.
  intros Hn. split_and!.
  - by intros ->.
  - by intros ->.
  - intros k ->. by rewrite index_nameb_tags_by_key in Hn.
  - intros t ->. by rewrite index_nameb_keys_by_tag in Hn.
Qed.

(** C1 (amended).  On a store whose index names hold sets, [gc()] with no
    arguments does not raise and
    - takes out of [CacheKeys] exactly the orphaned keys, those of its
      members for which no entry exists;
    - deletes the [tags-by-key] set of each orphaned key and leaves every
      other [tags-by-key] set as it is;
    - takes each orphaned key out of the [keys-by-tag] sets listed in its
      [tags-by-key] set, and nothing else out of any [keys-by-tag] set;
    - takes out of [Tags] exactly the tags whose [keys-by-tag] set reads
      empty in the store as it is before the sweep (a tag whose set the
      sweep itself empties stays in [Tags]);
    - leaves every entry outside the index, so every primary value,
      unchanged. *)
Theorem gc_full_sweep (s : store) (K T : gset string) :
  index_ok s ->
  smembers CacheKeys s = Ok K ->
  smembers Tags s = Ok T ->
  exists s',
    gc None None s = (s', Ok tt) /\
    (exists K', smembers CacheKeys s' = Ok K' /\
                forall k, k ∈ K' <-> k ∈ K /\ exists_ k s = true) /\
    (forall k, k ∈ K -> exists_ k s = false -> s' !! tags_by_key k = None) /\
    (forall k, ~ (k ∈ K /\ exists_ k s = false) ->
               s' !! tags_by_key k = s !! tags_by_key k) /\
    (forall t Kt, get_keys t s = Ok Kt ->
       exists Kt', get_keys t s' = Ok Kt' /\
         forall k, k ∈ Kt' <->
                   k ∈ Kt /\
                   ~ (k ∈ K /\ exists_ k s = false /\
                      exists ts, get_tags k s = Ok ts /\ t ∈ ts)) /\
    (exists T', smembers Tags s' = Ok T' /\
                forall t, t ∈ T' <-> t ∈ T /\ get_keys t s <> Ok ∅) /\
    (forall n, index_nameb n = false -> s' !! n = s !! n).
Proof.
  intros Hok HK HT.
  destruct (gc_index_ok None None s Hok)
    as (kl & tl & p1 & p2 & Hkl & Htl & Hp1 & Hp2 & Hgc).
  rewrite (candidates_None _ _ _ HK) in Hkl. injection Hkl as <-.
  rewrite (candidates_None _ _ _ HT) in Htl. injection Htl as <-.
  eexists. split; [exact Hgc|].
  pose proof (gc_pipeline_shrinking s _ _ p1 p2 Hp1 Hp2) as Hshr.
  pose proof (fun n => gc_pipeline_DEL s _ _ p1 p2 Hp1 Hp2 n) as HD.
  pose proof (fun n m => gc_pipeline_SREM s _ _ p1 p2 Hp1 Hp2 n m) as HR.
  unfold gc_dels in HD. unfold gc_rems in HR.
  setoid_rewrite elem_of_elements in HD.
  setoid_rewrite elem_of_elements in HR.
  unfold get_keys, get_tags. split_and!.
  - eexists. split.
    { eapply smembers_shrink; [done|by apply execute_shrink]. }
    rewrite bool_decide_false.
    2:{ rewrite HD. intros [(? & _ & _ & ?)|(? & _ & _ & ?)]; clash. }
    intros k. rewrite elem_of_difference, elem_of_rems, HR. split.
    + intros [Hin Hr]. split; [done|].
      destruct (exists_ k s) eqn:Hex; [done|]. exfalso. apply Hr.
      left. eauto.
    + intros [Hin Hex]. split; [done|].
      intros [(_ & Hex' & _)|(_ & _ & ?)]; [congruence|clash].
  - intros k Hin Hex. rewrite execute_shrink by done.
    rewrite bool_decide_true; [done|]. apply HD. left. eauto.
  - intros k Hk. rewrite execute_shrink by done.
    rewrite <- (shrink_id (s !! tags_by_key k)) at 2. apply shrink_ext.
    + apply bool_decide_eq_false. rewrite HD.
      intros [(key & Hin & Hex & Heq)|(? & _ & _ & ?)]; [|clash].
      apply tags_by_key_inj in Heq as <-. by apply Hk.
    + intros m. rewrite elem_of_rems, HR. split; [|set_solver].
      intros [(_ & _ & [?|(? & ? & _ & _ & ?)])|(_ & _ & ?)]; clash.
  - intros t Kt HKt. eexists. split.
    { eapply smembers_shrink; [done|by apply execute_shrink]. }
    case_bool_decide as Hd.
    + apply HD in Hd as [(? & _ & _ & ?)|(tag & _ & Hcard & Heq)]; [clash|].
      apply keys_by_tag_inj in Heq as <-. apply scard_0 in Hcard.
      rewrite HKt in Hcard. injection Hcard as ->. set_solver.
    + intros k. rewrite elem_of_difference, elem_of_rems, HR. split.
      * intros [Hin Hr]. split; [done|].
        intros (HinK & Hex & ts & Hts & Htag). apply Hr. left.
        split_and!; try done. right. eauto.
      * intros [Hin Hr]. split; [done|].
        intros [(HinK & Hex & [?|(tag & ts & Hts & Htag & Heq)])|(_ & _ & ?)];
          [clash| |clash].
        apply keys_by_tag_inj in Heq as <-. apply Hr. eauto.
  - eexists. split.
    { eapply smembers_shrink; [done|by apply execute_shrink]. }
    rewrite bool_decide_false.
    2:{ rewrite HD. intros [(? & _ & _ & ?)|(? & _ & _ & ?)]; clash. }
    intros t. rewrite elem_of_difference, elem_of_rems, HR. split.
    + intros [Hin Hr]. split; [done|]. intros Hempty. apply Hr.
      right. by rewrite scard_0.
    + intros [Hin Hne]. split; [done|].
      intros [(_ & _ & [?|(? & ? & _ & _ & ?)])|(_ & Hcard & _)];
        [clash|clash|]. by apply scard_0 in Hcard.
  - intros n Hn. apply index_nameb_false in Hn as (Hn1 & Hn2 & Hn3 & Hn4).
    rewrite execute_shrink by done.
    rewrite <- (shrink_id (s !! n)) at 2. apply shrink_ext.
    + apply bool_decide_eq_false. rewrite HD.
      intros [(key & _ & _ & ?)|(tag & _ & _ & ?)];
        [by apply (Hn3 key)|by apply (Hn4 tag)].
    + intros m. rewrite elem_of_rems, HR. split; [|set_solver].
      intros [(_ & _ & [?|(tag & ? & _ & _ & ?)])|(_ & _ & ?)]; try done.
      by destruct (Hn4 tag).
Qed.

End with_clock_9.

Section example_10.

#[local] Existing Instance example_clock.

Lemma gc_full_sweep_witness :
  let s := expired "Post:1"
             (set "Post:2" "again" ["Post"] None
                (set "Post:1" "Hello" ["Post"; "Draft"] None ∅).1).1 in
  index_ok s /\
  smembers CacheKeys s = Ok {["Post:1"; "Post:2"]} /\
  smembers Tags s = Ok {["Post"; "Draft"]} /\
  exists s', gc None None s = (s', Ok tt).
Proof.
  cbv zeta.
  assert (index_ok (expired "Post:1"
             (set "Post:2" "again" ["Post"] None
                (set "Post:1" "Hello" ["Post"; "Draft"] None ∅).1).1)) as H1
    by (apply (bool_decide_unpack _); vm_compute; exact I).
  assert (smembers CacheKeys (expired "Post:1"
             (set "Post:2" "again" ["Post"] None
                (set "Post:1" "Hello" ["Post"; "Draft"] None ∅).1).1)
          = Ok {["Post:1"; "Post:2"]}) as H2 by (vm_compute; reflexivity).
  assert (smembers Tags (expired "Post:1"
             (set "Post:2" "again" ["Post"] None
                (set "Post:1" "Hello" ["Post"; "Draft"] None ∅).1).1)
          = Ok {["Post"; "Draft"]}) as H3 by (vm_compute; reflexivity).
  split_and!; [exact H1|exact H2|exact H3|].
  destruct (gc_full_sweep _ _ _ H1 H2 H3) as (s' & Hgc & _).
  exists s'. exact Hgc.
Defined.

(** C1 as stated fails: the key [k] carries the tag [A] and has expired.
    The full sweep empties the key set of [A], which the server then
    removes, but [A] stays in [Tags]: its cardinality was read, as 1,
    before the pipeline ran. *)
Lemma gc_keeps_tag_it_empties :
  let s := expired "k" (set "k" "v" ["A"] None ∅).1 in
  smembers CacheKeys s = Ok {["k"]} /\
  s !! "k" = None /\
  get_keys "A" s = Ok {["k"]} /\
  (gc None None s).2 = Ok tt /\
  get_keys "A" (gc None None s).1 = Ok ∅ /\
  (gc None None s).1 !! keys_by_tag "A" = None /\
  smembers Tags (gc None None s).1 = Ok {["A"]}.
Proof. vm_compute. done. Qed.

End example_10.

Section with_clock_11.

Context {clk : Clock}.

(** ** C5: clearing a key twice *)

Lemma shrink_empty_set d R o t :
  shrink d R o = Some (Entry (RSet ∅) t) ->
  d = false /\ o = Some (Entry (RSet ∅) t).
Proof.
  unfold shrink. destruct d; [done|].
  destruct o as [[[v|ms] t']|]; try done.
  destruct (decide (ms ## R)) as [_|_]; [done|].
  destruct (decide (ms ⊆ R)) as [|Hsub]; [done|].
  intros [= He _]. exfalso. apply Hsub. intros x Hx.
  destruct (decide (x ∈ R)); [done|]. set_solver.
Qed.

Lemma shrink_disjoint R o :
  (forall ms t, o = Some (Entry (RSet ms) t) -> ms ## R) ->
  shrink false R o = o.
Proof.
  intros H. destruct o as [[[v|ms] t]|]; cbn; try done.
  by rewrite decide_True by eauto.
Qed.

Lemma smembers_None n (s : store) : s !! n = None -> smembers n s = Ok ∅.
Proof. unfold smembers. by intros ->. Qed.

Lemma exists_None n (s : store) : s !! n = None -> exists_ n s = false.
Proof. unfold exists_. by intros ->. Qed.

Lemma smembers_lookup_eq n (s s' : store) :
  s' !! n = s !! n -> smembers n s' = smembers n s.
Proof. unfold smembers. by intros ->. Qed.

Section sweep_one.

Variables (s : store) (k : string) (T : gset string).
Hypothesis Hok : index_ok s.
Hypothesis Hk : s !! k = None.
Hypothesis HT : smembers Tags s = Ok T.

(** The first sweep for an absent key [k] leaves nothing of [k] in the
    index, and no empty set under a tag that is still in [Tags]. *)
Lemma gc_one_first :
  exists s',
    gc (Some [k]) None s = (s', Ok tt) /\
    index_ok s' /\
    s' !! k = None /\
    s' !! tags_by_key k = None /\
    (forall ms, smembers CacheKeys s' = Ok ms -> k ∉ ms) /\
    (forall t T', smembers Tags s' = Ok T' -> t ∈ T' ->
                  get_keys t s' = Ok ∅ -> s' !! keys_by_tag t = None).
Proof.
  pose proof (index_ok_gc (Some [k]) None s Hok) as Hok'.
  destruct (gc_index_ok (Some [k]) None s Hok)
    as (kl & tl & p1 & p2 & Hkl & Htl & Hp1 & Hp2 & Hgc).
  rewrite candidates_Some_cons in Hkl. injection Hkl as <-.
  rewrite (candidates_None _ _ _ HT) in Htl. injection Htl as <-.
  rewrite Hgc in Hok'. eexists. split; [exact Hgc|].
  pose proof (gc_pipeline_shrinking s _ _ p1 p2 Hp1 Hp2) as Hshr.
  pose proof (fun n => gc_pipeline_DEL s _ _ p1 p2 Hp1 Hp2 n) as HD.
  pose proof (fun n m => gc_pipeline_SREM s _ _ p1 p2 Hp1 Hp2 n m) as HR.
  pose proof (exists_None _ _ Hk) as Hex.
  split_and!; [done|..].
  - rewrite execute_shrink by done. by rewrite Hk, shrink_none.
  - rewrite execute_shrink by done. rewrite bool_decide_true; [done|].
    apply HD. left. exists k. split_and!; [set_solver|done..].
  - intros ms Hms.
    destruct (smembers_is_Ok CacheKeys s) as [K HK];
      [apply index_ok_lookup; auto with names|].
    rewrite (smembers_shrink CacheKeys s _ _ _ K HK (execute_shrink _ _ _ Hshr))
      in Hms.
    injection Hms as <-. case_bool_decide; [set_solver|].
    rewrite elem_of_difference, elem_of_rems, HR. intros [_ Hr].
    apply Hr. left. split_and!; [set_solver|done|by left].
  - intros t T' HT' Hin Hempty.
    destruct ((execute (p1 ++ p2) s).1 !! keys_by_tag t)
      as [[[v|ms] tt']|] eqn:Hl; [| |done].
    { unfold get_keys, smembers in Hempty. by rewrite Hl in Hempty. }
    exfalso. unfold get_keys, smembers in Hempty. rewrite Hl in Hempty.
    injection Hempty as ->. rewrite execute_shrink in Hl by done.
    apply shrink_empty_set in Hl as [Hd Hl].
    apply bool_decide_eq_false in Hd. apply Hd, HD. right.
    exists t. split_and!; [|apply scard_0; unfold smembers; by rewrite Hl|done].
    rewrite (smembers_shrink Tags s _ _ _ T HT (execute_shrink _ _ _ Hshr))
      in HT'.
    injection HT' as <-. rewrite elem_of_elements.
    case_bool_decide; set_solver.
Qed.

Hypothesis Htbk : s !! tags_by_key k = None.
Hypothesis HCK : forall ms, smembers CacheKeys s = Ok ms -> k ∉ ms.
Hypothesis Hdead :
  forall t, t ∈ T -> get_keys t s = Ok ∅ -> s !! keys_by_tag t = None.

(** Once nothing of [k] is left in the index, a further sweep for [k]
    can only take dead tags out of [Tags]. *)
Lemma gc_one_settled :
  exists s' R,
    gc (Some [k]) None s = (s', Ok tt) /\
    (forall m, m ∈ R <-> m ∈ T /\ get_keys m s = Ok ∅) /\
    (forall n, n <> Tags -> s' !! n = s !! n) /\
    s' !! Tags = shrink false R (s !! Tags).
Proof.
  destruct (gc_index_ok (Some [k]) None s Hok)
    as (kl & tl & p1 & p2 & Hkl & Htl & Hp1 & Hp2 & Hgc).
  rewrite candidates_Some_cons in Hkl. injection Hkl as <-.
  rewrite (candidates_None _ _ _ HT) in Htl. injection Htl as <-.
  exists (execute (p1 ++ p2) s).1, (rems Tags (p1 ++ p2)).
  split; [exact Hgc|].
  pose proof (gc_pipeline_shrinking s _ _ p1 p2 Hp1 Hp2) as Hshr.
  pose proof (fun n => gc_pipeline_DEL s _ _ p1 p2 Hp1 Hp2 n) as HD.
  pose proof (fun n m => gc_pipeline_SREM s _ _ p1 p2 Hp1 Hp2 n m) as HR.
  pose proof (smembers_None _ _ Htbk) as Hts.
  split_and!.
  - intros m. rewrite elem_of_rems, HR. unfold get_keys. split.
    + intros Hr. apply gc_one_rems in Hr as [(_ & [?|(? & ?)])|(Hin & ? & _)];
        [clash|clash|]. by rewrite elem_of_elements in Hin.
    + intros [Hin Hempty]. right. rewrite elem_of_elements, scard_0. done.
  - intros n Hn. rewrite execute_shrink by done.
    case_bool_decide as Hd.
    + apply HD, gc_one_dels in Hd as [ -> |(tag & Hin & Hempty & ->)].
      * by rewrite Htbk.
      * rewrite elem_of_elements in Hin. by rewrite (Hdead tag).
    + apply shrink_disjoint. intros ms t Hms m Hm1 Hm2.
      apply elem_of_rems, HR in Hm2.
      destruct Hm2 as [(Hm & _ & [ -> |(tag & ts & Hts' & Htag & _)])
                      |(_ & _ & ?)]; [| |done].
      * apply list_elem_of_singleton in Hm as ->.
        apply (HCK ms); [|done]. unfold smembers. by rewrite Hms.
      * apply list_elem_of_singleton in Hm as ->.
        rewrite Hts in Hts'. injection Hts' as <-. set_solver.
  - rewrite execute_shrink by done. apply shrink_ext; [|done].
    apply bool_decide_eq_false. intros Hd.
    apply HD, gc_one_dels in Hd as [?|(? & _ & _ & ?)]; clash.
Qed.

End sweep_one.

Lemma clear_unfold k s : clear k s = gc (Some [k]) None (delete k s).
Proof. done. Qed.

Lemma index_ok_delete k s : index_ok s -> index_ok (delete k s).
Proof. intros Hs. by apply map_Forall_delete. Qed.

(** C5 (amended).  On a store whose index names hold sets, [clear(k)]
    raises neither the first nor the second time, also when [k] was
    absent to begin with.  The second call leaves every entry as the first
    call left it, except the root set [Tags]: it takes out of [Tags] the
    tags whose [keys-by-tag] set reads empty after the first call (those
    the first call emptied, whose cardinality it had read beforehand).
    From the second call on the store no longer changes. *)
Theorem clear_twice (k : string) (s : store) :
  index_ok s ->
  exists s1 s2,
    clear k s = (s1, Ok tt) /\
    clear k s1 = (s2, Ok tt) /\
    (forall n, n <> Tags -> s2 !! n = s1 !! n) /\
    (forall T1, smembers Tags s1 = Ok T1 ->
       exists T2, smembers Tags s2 = Ok T2 /\
                  forall t, t ∈ T2 <-> t ∈ T1 /\ get_keys t s1 <> Ok ∅) /\
    clear k s2 = (s2, Ok tt).
Proof.
  intros Hok. rewrite clear_unfold.
  pose proof (index_ok_delete k s Hok) as Hok0.
  destruct (smembers_is_Ok Tags (delete k s)) as [T0 HT0];
    [apply index_ok_lookup; auto with names|].
  destruct (gc_one_first (delete k s) k T0 Hok0 (lookup_delete_eq s k) HT0)
    as (s1 & Hgc1 & Hok1 & Hk1 & Htbk1 & HCK1 & Hdead1).
  destruct (smembers_is_Ok Tags s1) as [T1 HT1];
    [apply index_ok_lookup; auto with names|].
  destruct (gc_one_settled s1 k T1 Hok1 HT1 Htbk1 HCK1
              (fun t => Hdead1 t T1 HT1))
    as (s2 & R1 & Hgc2 & HR1 & Hframe2 & HTags2).
  assert (smembers Tags s2 = Ok (T1 ∖ R1)) as HT2
    by exact (smembers_shrink Tags s1 s2 false R1 T1 HT1 HTags2).
  assert (forall t, t ∈ T1 ∖ R1 <-> t ∈ T1 /\ get_keys t s1 <> Ok ∅) as HT2'.
  { intros t. rewrite elem_of_difference, HR1. tauto. }
  assert (forall t, get_keys t s2 = get_keys t s1) as Hkeys2.
  { intros t. apply smembers_lookup_eq, Hframe2. clash. }
  exists s1, s2. split; [exact Hgc1|].
  rewrite !clear_unfold, (delete_id s1 k Hk1).
  split; [exact Hgc2|]. split; [exact Hframe2|]. split.
  { intros T1' HT1'. rewrite HT1 in HT1'. injection HT1' as <-. eauto. }
  assert (s2 !! k = None) as Hk2.
  { destruct (decide (k = Tags)) as [ -> |Hne].
    - by rewrite HTags2, Hk1, shrink_none.
    - by rewrite Hframe2. }
  rewrite (delete_id s2 k Hk2).
  pose proof (index_ok_gc (Some [k]) None s1 Hok1) as Hok2.
  rewrite Hgc2 in Hok2. cbn [fst] in Hok2.
  destruct (gc_one_settled s2 k (T1 ∖ R1) Hok2 HT2)
    as (s3 & R2 & Hgc3 & HR2 & Hframe3 & HTags3).
  - rewrite Hframe2; [done|clash].
  - intros ms Hms. apply HCK1.
    rewrite <- Hms. symmetry. apply smembers_lookup_eq, Hframe2. clash.
  - intros t Hin Hempty. apply HT2' in Hin as [_ Hne].
    by rewrite Hkeys2 in Hempty.
  - rewrite Hgc3. f_equal. apply map_eq. intros n.
    destruct (decide (n = Tags)) as [ -> |Hne]; [|by apply Hframe3].
    rewrite HTags3. apply shrink_disjoint. intros ms t _ m _ Hm.
    apply HR2 in Hm as [Hin Hempty]. apply HT2' in Hin as [_ Hne].
    by rewrite Hkeys2 in Hempty.
Qed.

End with_clock_11.

Section example_12.

#[local] Existing Instance example_clock.

Lemma clear_twice_witness :
  let s := (set "User:2" "foo" ["User"] None
              (set "User:1" "mitch" ["User"; "PremiumUser"] None ∅).1).1 in
  index_ok s /\
  exists s1 s2,
    clear "User:1" s = (s1, Ok tt) /\ clear "User:1" s1 = (s2, Ok tt) /\
    clear "User:1" s2 = (s2, Ok tt).
Proof.
  cbv zeta.
  assert (index_ok (set "User:2" "foo" ["User"] None
              (set "User:1" "mitch" ["User"; "PremiumUser"] None ∅).1).1)
    as H by (apply (bool_decide_unpack _); vm_compute; exact I).
  split; [exact H|].
  destruct (clear_twice "User:1" _ H) as (s1 & s2 & H1 & H2 & _ & _ & H3).
  exists s1, s2. split_and!; [exact H1|exact H2|exact H3].
Defined.

(** C5 as stated fails: after [set("k", "v", tags=["A"])] the first
    [clear("k")] leaves the tag [A] in [Tags] (it read the cardinality of
    the key set of [A] before emptying it), and the second [clear("k")]
    removes it: the end states differ. *)
Lemma clear_twice_differs :
  let s := (set "k" "v" ["A"] None ∅).1 in
  (clear "k" s).2 = Ok tt /\
  (clear "k" (clear "k" s).1).2 = Ok tt /\
  smembers Tags (clear "k" s).1 = Ok {["A"]} /\
  smembers Tags (clear "k" (clear "k" s).1).1 = Ok ∅ /\
  (clear "k" (clear "k" s).1).1 <> (clear "k" s).1.
Proof.
  cbv zeta. split_and!; [by vm_compute..|].
  intros Heq. apply (f_equal (smembers Tags)) in Heq.
  vm_compute in Heq. discriminate Heq.
Qed.

End example_12.

Section with_clock_13.

Context {clk : Clock}.

(** ** C2 and C3: what [set] leaves in the index *)

Lemma elem_of_adds n m p : m ∈ adds n p <-> SADD n m ∈ p.
Proof.
  induction p as [|c p IH]; cbn.
  - set_solver.
  - rewrite elem_of_cons.
    destruct c as [n' m'|n' m'|n'|n' v|n' t]; try (rewrite IH; intuition congruence).
    case_decide as Hn; [subst n'|];
      rewrite ?elem_of_union, ?elem_of_singleton, IH; intuition congruence.
Qed.

(** A set on which the pipeline only runs SADD gains the added members. *)
Lemma execute_sadd_only p s n ms :
  (forall c, c ∈ p -> cmd_name c = n -> exists m, c = SADD n m) ->
  smembers n s = Ok ms ->
  smembers n (execute p s).1 = Ok (ms ∪ adds n p).
Proof.
  revert s ms. induction p as [|c p IH]; intros s ms Hp Hms.
  - cbn. rewrite Hms. f_equal. set_solver.
  - rewrite execute_cons. cbn [fst].
    assert (forall c', c' ∈ p -> cmd_name c' = n -> exists m, c' = SADD n m)
      as Hp' by (intros c' Hc'; apply Hp; by right).
    destruct (decide (cmd_name c = n)) as [Hn|Hn].
    + destruct (Hp c ltac:(left) Hn) as [m ->]. cbn in Hn. subst.
      rewrite (IH _ (ms ∪ {[m]})); [|done|].
      * cbn [adds]. rewrite decide_True by done. f_equal. set_solver.
      * unfold smembers in *. cbn.
        destruct (s !! n) as [[[v|ms'] t]|]; cbn; try done.
        -- rewrite lookup_insert_eq. congruence.
        -- rewrite lookup_insert_eq. injection Hms as <-. f_equal. set_solver.
    + rewrite (IH _ ms); [| done |].
      * f_equal. f_equal. apply set_eq. intros m.
        rewrite !elem_of_adds, elem_of_cons. split; [by right|].
        intros [Heq|?]; [|done]. subst c. by cbn in Hn.
      * unfold smembers. by rewrite run_cmd_other.
Qed.

Lemma set_cmds_elem key value tags ttl c :
  c ∈ set_cmds key value tags ttl <->
  (exists tag, tag ∈ tags /\
     (c = SADD (tags_by_key key) tag \/ c = SADD (keys_by_tag tag) key \/
      c = SADD Tags tag)) \/
  c = SADD CacheKeys key \/ c = SET key value \/
  (truthy ttl = true /\ c = EXPIRE key (default 0%Z ttl)).
Proof.
  unfold set_cmds. rewrite !elem_of_app, list_elem_of_In, in_flat_map.
  setoid_rewrite <- list_elem_of_In.
  rewrite !elem_of_cons, elem_of_nil. split.
  - intros [(tag & Htag & Hc)|[[?|[?|[]]]|Hc]]; eauto.
    + left. exists tag. split; [done|].
      rewrite !elem_of_cons, elem_of_nil in Hc. tauto.
    + destruct (truthy ttl); [|set_solver].
      apply list_elem_of_singleton in Hc. eauto.
  - intros [(tag & Htag & Hc)|[?|[?|[Ht ?]]]]; eauto.
    + left. exists tag. split; [done|].
      rewrite !elem_of_cons, elem_of_nil. tauto.
    + right. right. rewrite Ht. by apply list_elem_of_singleton.
Qed.

(** [set] only ever adds to the [tags-by-key] set of its key. *)
Lemma set_get_tags key value tags ttl s T0 :
  get_tags key s = Ok T0 ->
  get_tags key (set key value tags ttl s).1 = Ok (T0 ∪ list_to_set tags).
Proof.
  intros HT0. unfold get_tags, set in *. cbn [of_flag fst].
  rewrite (execute_sadd_only _ _ _ T0); [| |done].
  - f_equal. f_equal. apply set_eq. intros m.
    rewrite elem_of_adds, set_cmds_elem, elem_of_list_to_set. split.
    + intros [(tag & Htag & [[= <-]|[?|?]])|[?|[?|[_ ?]]]]; try done; clash.
    + intros Hm. left. eauto.
  - intros c Hc Hn. apply set_cmds_elem in Hc
      as [(tag & Htag & [ -> |[ -> | -> ]])|[ -> |[ -> |[_ ->]]]];
      cbn in Hn; try clash; eauto.
    all: symmetry in Hn; by apply tags_by_key_self in Hn.
Qed.

(** [set] puts its key into the [keys-by-tag] set of each of its tags,
    unless the key is that very name. *)
Lemma set_get_keys key value tags ttl s t K0 :
  t ∈ tags -> key <> keys_by_tag t ->
  get_keys t s = Ok K0 ->
  get_keys t (set key value tags ttl s).1 = Ok (K0 ∪ {[key]}).
Proof.
  intros Ht Hne HK0. unfold get_keys, set in *. cbn [of_flag fst].
  rewrite (execute_sadd_only _ _ _ K0); [| |done].
  - f_equal. f_equal. apply set_eq. intros m.
    rewrite elem_of_adds, set_cmds_elem, elem_of_singleton. split.
    + intros [(tag & Htag & [?|[[= _ <-]|?]])|[?|[?|[_ ?]]]]; try done; clash.
    + intros ->. left. eauto.
  - intros c Hc Hn. apply set_cmds_elem in Hc
      as [(tag & Htag & [ -> |[ -> | -> ]])|[ -> |[ -> |[_ ->]]]];
      cbn in Hn; try clash; try done.
    apply keys_by_tag_inj in Hn as ->. eauto.
Qed.

(** Without a time to live, [set] ends with SET: the key holds the value. *)
Lemma set_lookup_key key value tags s :
  (set key value tags None s).1 !! key = Some (Entry (RStr value) None).
Proof.
  unfold set, set_cmds. cbn [truthy of_flag fst].
  rewrite app_nil_r.
  change [SADD CacheKeys key; SET key value]
    with ([SADD CacheKeys key] ++ [SET key value]).
  rewrite app_assoc, execute_app. cbn.
  apply lookup_insert_eq.
Qed.

(** C2.  From any store in which [get_tags(k)] answers [T0],
    [set(k, v1, tags=[A])] followed by [set(k, v2, tags=[B])] leaves a
    store in which [get_tags(k)] answers [T0] with [A] and [B] added, so
    exactly [{A, B}] when no tag was recorded for [k] before, and [get(k)]
    answers [v2] without changing the store: the tags are unioned, never
    replaced or shrunk, and the value is overwritten.  (The store is the
    one the two pipelines leave, whether or not the server refused one of
    their commands.) *)
Theorem set_twice_unions_tags (k v1 v2 A B : string) (s : store)
    (T0 : gset string) :
  get_tags k s = Ok T0 ->
  let s2 := (set k v2 [B] None (set k v1 [A] None s).1).1 in
  get_tags k s2 = Ok (T0 ∪ {[A; B]}) /\
  TaggedCache.get k true s2 = (s2, Ok (Some v2)) /\
  (T0 = ∅ -> get_tags k s2 = Ok {[A; B]}).
Proof.
  intros HT0 s2.
  assert (get_tags k s2 = Ok (T0 ∪ {[A; B]})) as Htags.
  { subst s2. rewrite (set_get_tags _ _ _ _ _ (T0 ∪ list_to_set [A])).
    - f_equal. set_solver.
    - by apply set_get_tags. }
  split_and!; [done| |].
  - unfold TaggedCache.get, Redis.get. subst s2.
    by rewrite set_lookup_key.
  - intros ->. rewrite Htags. f_equal. set_solver.
Qed.

End with_clock_13.

Section example_14.

#[local] Existing Instance example_clock.

Lemma set_twice_unions_tags_witness :
  get_tags "k" ∅ = Ok ∅ /\
  let s2 := (set "k" "v2" ["B"] None (set "k" "v1" ["A"] None ∅).1).1 in
  get_tags "k" s2 = Ok {["A"; "B"]} /\
  TaggedCache.get "k" true s2 = (s2, Ok (Some "v2")).
Proof.
  assert (get_tags "k" ∅ = Ok ∅) as H by reflexivity.
  split; [exact H|].
  destruct (set_twice_unions_tags "k" "v1" "v2" "A" "B" ∅ ∅ H)
    as (_ & Hget & Htags).
  split; [exact (Htags eq_refl)|exact Hget].
Defined.

End example_14.

Section with_clock_15.

Context {clk : Clock}.

(** C3 (amended).  From any store in which [get_tags(k)] answers [T0],
    right after [set(k, v, tags=T)] the call [get_tags(k)] answers [T0]
    united with the distinct tags of [T], which is exactly the tags of
    [T] when none was recorded for [k] before; and for every [t] in [T]
    whose key set could be read before the call, [k] is a member of
    [get_keys(t)], unless [k] is itself the name [keys-by-tag:t], which
    the final SET then overwrites. *)
Theorem set_then_index (k v : string) (tags : list string) (ttl : option Z)
    (s : store) (T0 : gset string) :
  get_tags k s = Ok T0 ->
  let s' := (set k v tags ttl s).1 in
  get_tags k s' = Ok (T0 ∪ list_to_set tags) /\
  (T0 = ∅ -> get_tags k s' = Ok (list_to_set tags)) /\
  (forall t K0, t ∈ tags -> k <> keys_by_tag t -> get_keys t s = Ok K0 ->
     exists K', get_keys t s' = Ok K' /\ k ∈ K').
Proof.
  intros HT0 s'. split_and!.
  - by apply set_get_tags.
  - intros ->. subst s'. rewrite (set_get_tags _ _ _ _ _ ∅ HT0).
    f_equal. set_solver.
  - intros t K0 Ht Hne HK0. exists (K0 ∪ {[k]}). split; [|set_solver].
    by apply set_get_keys.
Qed.

End with_clock_15.

Section example_16.

#[local] Existing Instance example_clock.

Lemma set_then_index_witness :
  let s := (set "User:2" "foo" ["User"] None ∅).1 in
  get_tags "User:1" s = Ok ∅ /\
  get_tags "User:1" (set "User:1" "mitch" ["User"; "PremiumUser"] None s).1
  = Ok (∅ ∪ list_to_set ["User"; "PremiumUser"]).
Proof.
  cbv zeta.
  assert (get_tags "User:1" (set "User:2" "foo" ["User"] None ∅).1 = Ok ∅)
    as H by (vm_compute; reflexivity).
  split; [exact H|].
  exact (proj1 (set_then_index "User:1" "mitch" ["User"; "PremiumUser"]
                  None _ ∅ H)).
Defined.

(** C3 as stated fails in a store where [k] already has a tag: after
    [set("k", "v", tags=["A"])], the call [set("k", "v", tags=["B"])] is
    followed by [get_tags("k") = {A, B}], not [{B}]. *)
Lemma set_keeps_earlier_tags :
  let s := (set "k" "v" ["A"] None ∅).1 in
  get_tags "k" (set "k" "v" ["B"] None s).1 = Ok {["A"; "B"]} /\
  get_tags "k" (set "k" "v" ["B"] None s).1 <> Ok (list_to_set ["B"]).
Proof.
  cbv zeta. split; [by vm_compute|].
  intros Heq. vm_compute in Heq. discriminate Heq.
Qed.

End example_16.

Section with_clock_17.

Context {clk : Clock}.

(** ** C6: the full reset *)

Lemma members_lookup_eq n (s s' : store) :
  s' !! n = s !! n -> members n s' = members n s.
Proof. unfold members. by intros ->. Qed.

(** A root set that holds no string only grows under the commands of
    [set], and still holds no string. *)
Lemma root_run_cmd PK PT c s R :
  R = CacheKeys \/ R = Tags ->
  set_cmd_ok PK PT c ->
  is_str (s !! R) = false ->
  is_str ((run_cmd c s).1 !! R) = false /\
  members R s ⊆ members R (run_cmd c s).1 /\
  (forall x, c = SADD R x -> x ∈ members R (run_cmd c s).1).
Proof.
  intros HR Hc Hstr. destruct (decide (cmd_name c = R)) as [Hn|Hn].
  - destruct c as [n m| | |n v|n t]; cbn in Hc, Hn; try done; subst n.
    + unfold members. cbn.
      destruct (s !! R) as [[[v|ms] t]|]; cbn in *; try done;
        rewrite lookup_insert_eq; cbn;
        (split; [done|split; [set_solver|intros x [= ->]; set_solver]]).
    + destruct Hc as (_ & ? & ?). by destruct HR.
    + destruct Hc as (_ & ? & ?). by destruct HR.
  - rewrite (members_lookup_eq R s _ (run_cmd_other c s R Hn)).
    rewrite run_cmd_other by done. split_and!; [done..|].
    intros x ->. by cbn in Hn.
Qed.

Lemma named_mono PK PT (s s' : store) n :
  members CacheKeys s ⊆ members CacheKeys s' ->
  members Tags s ⊆ members Tags s' ->
  named PK PT s n -> named PK PT s' n.
Proof.
  intros HK HT [?|[?|[(k & [Hk|Hk] & Hn)|(t & [Ht|Ht] & Hn)]]];
    unfold named; eauto 8.
Qed.

Lemma cov_run_cmd PK PT c s :
  set_cmd_ok PK PT c -> cov PK PT s ->
  cov PK PT (run_cmd c s).1 /\
  members CacheKeys s ⊆ members CacheKeys (run_cmd c s).1 /\
  members Tags s ⊆ members Tags (run_cmd c s).1.
Proof.
  intros Hc (HsK & HsT & Hcov).
  destruct (root_run_cmd PK PT c s CacheKeys) as (HsK' & HmK & _); [eauto..|].
  destruct (root_run_cmd PK PT c s Tags) as (HsT' & HmT & _); [eauto..|].
  split_and!; try done. split_and!; try done.
  intros n Hn. destruct (decide (cmd_name c = n)) as [Heq|Hne].
  - subst n. unfold named.
    destruct c as [n m| | |n v|n t]; cbn in *; try done.
    + destruct Hc as [?|[?|[(k & ? & ?)|(t & ? & ?)]]]; eauto 8.
    + destruct Hc as (? & _). right; right; left. eauto.
    + destruct Hc as (? & _). right; right; left. eauto.
  - rewrite run_cmd_other in Hn by done.
    eapply named_mono; [done..|]. by apply Hcov.
Qed.

Lemma cov_execute PK PT p s :
  Forall (set_cmd_ok PK PT) p -> cov PK PT s ->
  cov PK PT (execute p s).1 /\
  members CacheKeys s ⊆ members CacheKeys (execute p s).1 /\
  members Tags s ⊆ members Tags (execute p s).1.
Proof.
  revert s. induction p as [|c p IH]; intros s Hp Hs; [done|].
  inversion_clear Hp as [|? ? Hc Hp']. rewrite execute_cons. cbn [fst].
  destruct (cov_run_cmd PK PT c s Hc Hs) as (Hs1 & HK1 & HT1).
  destruct (IH _ Hp' Hs1) as (Hs2 & HK2 & HT2).
  split_and!; [done|set_solver..].
Qed.

(** What [set] adds to a root set is in it when the pipeline has run. *)
Lemma cov_execute_sadd PK PT p s R x :
  R = CacheKeys \/ R = Tags ->
  Forall (set_cmd_ok PK PT) p -> cov PK PT s ->
  SADD R x ∈ p -> x ∈ members R (execute p s).1.
Proof.
  intros HR. revert s. induction p as [|c p IH]; intros s Hp Hs Hin.
  { by apply elem_of_nil in Hin. }
  inversion_clear Hp as [|? ? Hc Hp']. rewrite execute_cons. cbn [fst].
  destruct (cov_run_cmd PK PT c s Hc Hs) as (Hs1 & _ & _).
  apply elem_of_cons in Hin as [<-|Hin]; [|by apply IH].
  destruct (cov_execute PK PT p _ Hp' Hs1) as (_ & HK2 & HT2).
  assert (x ∈ members R (run_cmd (SADD R x) s).1) as Hx.
  { eapply root_run_cmd; [done|done| |done].
    destruct Hs as (? & ? & _). by destruct HR as [ -> | -> ]. }
  destruct HR as [ -> | -> ]; set_solver.
Qed.

Lemma set_cmds_ok key value tags ttl :
  key <> CacheKeys -> key <> Tags ->
  Forall (set_cmd_ok (fun k => k = key) (fun t => t ∈ tags))
         (set_cmds key value tags ttl).
Proof.
  intros HK HT. apply Forall_forall. intros c Hc.
  apply set_cmds_elem in Hc
    as [(tag & Htag & [ -> |[ -> | -> ]])|[ -> |[ -> |[_ ->]]]]; cbn; eauto 8.
Qed.

(** [set] on a key other than the two root names keeps every entry
    reachable from the roots. *)
Lemma covered_set key value tags ttl s :
  key <> CacheKeys -> key <> Tags ->
  covered s -> covered (set key value tags ttl s).1.
Proof.
  intros HK HT (HsK & HsT & Hcov). unfold set. cbn [of_flag fst].
  pose proof (set_cmds_ok key value tags ttl HK HT) as Hok.
  assert (cov (fun k => k = key) (fun t => t ∈ tags) s) as Hs.
  { split_and!; try done. intros n Hn.
    destruct (Hcov n Hn) as [?|[?|[(k & [Hk|[]] & ?)|(t & [Ht|[]] & ?)]]];
      unfold named; eauto 8. }
  destruct (cov_execute _ _ _ _ Hok Hs) as ((HsK' & HsT' & Hcov') & _ & _).
  split_and!; try done. intros n Hn.
  destruct (Hcov' n Hn) as [?|[?|[(k & [Hk| -> ] & ?)|(t & [Ht|Ht] & ?)]]];
    unfold named; eauto 8.
  - right; right; left. exists key. split; [left|done].
    eapply cov_execute_sadd; eauto. apply set_cmds_elem. eauto.
  - right; right; right. exists t. split; [left|done].
    eapply cov_execute_sadd; eauto. apply set_cmds_elem. eauto 8.
Qed.

Lemma covered_empty : covered ∅.
Proof.
  split_and!; try done. intros n [e He]. by rewrite lookup_empty in He.
Qed.

Lemma covered_set_all calls s :
  Forall (fun c => call_key c <> CacheKeys /\ call_key c <> Tags) calls ->
  covered s -> covered (set_all calls s).
Proof.
  revert s. induction calls as [|c calls IH]; intros s Hc Hs; [done|].
  inversion_clear Hc as [|? ? [HK HT] Hc']. cbn. apply IH; [done|].
  by apply covered_set.
Qed.

Lemma members_smembers n s :
  is_str (s !! n) = false -> smembers n s = Ok (members n s).
Proof.
  unfold smembers, members. by destruct (s !! n) as [[[v|ms] t]|].
Qed.

(** On a store in which every entry is reachable from the roots,
    [clear_all] deletes everything. *)
Lemma clear_all_covered s : covered s -> clear_all s = (∅, Ok tt).
Proof.
  intros (HsK & HsT & Hcov). unfold clear_all.
  rewrite (members_smembers _ _ HsK), (members_smembers _ _ HsT).
  set (p := _ ++ _ ++ _).
  assert (forall n, DEL n ∈ p <->
            (exists k, k ∈ members CacheKeys s /\
                       (n = k \/ n = tags_by_key k)) \/
            (exists t, t ∈ members Tags s /\ n = keys_by_tag t) \/
            n = CacheKeys \/ n = Tags) as HD.
  { intros n. subst p. rewrite !elem_of_app, list_elem_of_In, in_flat_map.
    setoid_rewrite <- list_elem_of_In. rewrite list_elem_of_fmap.
    setoid_rewrite elem_of_elements.
    rewrite !elem_of_cons, elem_of_nil. split.
    - intros [(k & Hk & Hc)|[(t & Heq & Ht)|[?|[?|[]]]]].
      + left. exists k. split; [done|].
        rewrite !elem_of_cons, elem_of_nil in Hc.
        destruct Hc as [?|[?|[]]]; [left|right]; congruence.
      + right; left. exists t. split; [done|]. congruence.
      + right; right; left. congruence.
      + right; right; right. congruence.
    - intros [(k & Hk & Hn)|[(t & Ht & ->)|[ -> | -> ]]]; eauto 8.
      left. exists k. split; [done|].
      rewrite !elem_of_cons, elem_of_nil. destruct Hn as [ -> | -> ]; eauto. }
  assert (Forall shrinking p) as Hshr.
  { apply Forall_forall. intros c Hc. subst p.
    rewrite !elem_of_app, list_elem_of_In, in_flat_map in Hc.
    setoid_rewrite <- list_elem_of_In in Hc.
    rewrite list_elem_of_fmap, !elem_of_cons, elem_of_nil in Hc.
    destruct Hc as [(k & _ & Hc)|[(t & -> & _)|[ -> |[ -> |[]]]]]; try done.
    rewrite !elem_of_cons, elem_of_nil in Hc.
    by destruct Hc as [ -> |[ -> |[]]]. }
  unfold of_flag. f_equal.
  - apply map_eq. intros n. rewrite execute_shrink, lookup_empty by done.
    destruct (s !! n) as [e|] eqn:Hn; [|by rewrite shrink_none].
    rewrite bool_decide_true; [done|]. apply HD.
    destruct (Hcov n) as [?|[?|[(k & [Hk|[]] & ?)|(t & [Ht|[]] & ?)]]];
      eauto 8.
  - rewrite execute_shrink_ok; [done|done|].
    intros n m Hin. exfalso. subst p.
    rewrite !elem_of_app, list_elem_of_In, in_flat_map in Hin.
    setoid_rewrite <- list_elem_of_In in Hin.
    rewrite list_elem_of_fmap, !elem_of_cons, elem_of_nil in Hin.
    destruct Hin as [(k & _ & Hc)|[(t & ? & _)|[?|[?|[]]]]]; try done.
    rewrite !elem_of_cons, elem_of_nil in Hc.
    by destruct Hc as [?|[?|[]]].
Qed.

(** C6 (amended).  After any sequence of [set] calls from the empty store
    whose keys are not the root names [CacheKeys] and [Tags],
    [clear_all()] raises nothing and leaves the store empty: no root set,
    no [tags-by-key] or [keys-by-tag] set and no primary entry is left;
    the [gc()] that follows raises nothing and the store stays empty. *)
Theorem clear_all_then_gc_resets (calls : list set_call) :
  Forall (fun c => call_key c <> CacheKeys /\ call_key c <> Tags) calls ->
  let s := set_all calls ∅ in
  clear_all s = (∅, Ok tt) /\
  gc None None (clear_all s).1 = (∅, Ok tt).
Proof.
  intros Hcalls s.
  assert (clear_all s = (∅, Ok tt)) as Hclear.
  { apply clear_all_covered, covered_set_all; [done|apply covered_empty]. }
  split; [done|]. rewrite Hclear. reflexivity.
Qed.

End with_clock_17.

Section example_18.

#[local] Existing Instance example_clock.

Lemma clear_all_then_gc_resets_witness :
  let calls :=
    [SetCall "User:1" "mitch" ["User"; "PremiumUser"] None;
     SetCall "User:2" "foo" ["User"] None;
     SetCall "ExpireMe" "foo" [] (Some 1%Z)] in
  Forall (fun c => call_key c <> CacheKeys /\ call_key c <> Tags) calls /\
  clear_all (set_all calls ∅) = (∅, Ok tt) /\
  gc None None (clear_all (set_all calls ∅)).1 = (∅, Ok tt).
Proof.
  cbv zeta.
  assert (Forall (fun c => call_key c <> CacheKeys /\ call_key c <> Tags)
            [SetCall "User:1" "mitch" ["User"; "PremiumUser"] None;
             SetCall "User:2" "foo" ["User"] None;
             SetCall "ExpireMe" "foo" [] (Some 1%Z)]) as H
    by (repeat constructor; cbn; discriminate).
  split; [exact H|].
  exact (clear_all_then_gc_resets _ H).
Defined.

(** C6 as stated fails for a key named like a root set:
    [set("CacheKeys", "v")] ends with SET, which leaves a string under
    [CacheKeys]; [clear_all()] and [gc()] then both raise at their first
    read of [CacheKeys] and delete nothing, so the primary entry
    remains. *)
Lemma clear_all_fails_on_root_key :
  let s := set_all [SetCall "CacheKeys" "v" [] None] ∅ in
  clear_all s = (s, WrongType) /\
  gc None None (clear_all s).1 = (s, WrongType) /\
  Redis.get "CacheKeys" (gc None None (clear_all s).1).1 = Ok (Some "v").
Proof. vm_compute. done. Qed.

End example_18.

Section with_clock_19.

Context {clk : Clock}.

(** * Further properties of the class *)

(** ** Every method keeps the index names typed *)

Lemma members_shrink n (s s' : store) d R :
  s' !! n = shrink d R (s !! n) ->
  members n s' = if d then ∅ else members n s ∖ R.
Proof.
  unfold members, shrink. intros ->. destruct d; [done|].
  destruct (s !! n) as [[[v|ms] t]|]; try set_solver.
  repeat case_decide; set_solver.
Qed.

(** A sweep that gets past its reads runs a removing pipeline whose
    commands are those of [gc_dels] and [gc_rems]. *)
Lemma gc_run keys tags s :
  gc keys tags s = (s, WrongType) \/
  exists kl tl p,
    candidates keys CacheKeys s = Ok kl /\
    candidates tags Tags s = Ok tl /\
    gc keys tags s = of_flag (execute p s) /\
    Forall shrinking p /\
    (forall n, DEL n ∈ p <-> gc_dels s kl tl n) /\
    (forall n m, SREM n m ∈ p <-> gc_rems s kl tl n m) /\
    (forall k, k ∈ kl -> exists_ k s = false ->
               exists ts, smembers (tags_by_key k) s = Ok ts).
Proof.
  destruct (gc_cases keys tags s)
    as [?|(kl & tl & p1 & p2 & Hkl & Htl & Hp1 & Hp2 & Hgc)]; [by left|].
  right. exists kl, tl, (p1 ++ p2). split_and!; try done.
  - by eapply gc_pipeline_shrinking.
  - by apply gc_pipeline_DEL.
  - by apply gc_pipeline_SREM.
  - intros k Hk Hex. destruct (queue_all_each _ _ _ _ Hp1 Hk) as [cs Hcs].
    unfold gc_key_cmds in Hcs. rewrite Hex in Hcs.
    destruct (smembers (tags_by_key k) s); [eauto|done].
Qed.

Lemma index_ok_insert n e s :
  (index_nameb n = true -> is_str (Some e) = false) ->
  index_ok s -> index_ok (<[n := e]> s).
Proof. intros He Hs. by apply map_Forall_insert_2. Qed.

Lemma index_ok_run_cmd c s :
  set_cmd_safe c -> index_ok s ->
  index_ok (run_cmd c s).1 /\ (run_cmd c s).2 = true.
Proof.
  intros Hc Hs. destruct c as [n m| | |n v|n t]; cbn in Hc; try done; cbn.
  - pose proof (index_ok_lookup s n Hs Hc) as Hstr.
    destruct (s !! n) as [[[v|ms] t]|]; cbn in *; try done;
      (split; [by apply index_ok_insert|done]).
  - split; [|done]. apply index_ok_insert; [|done]. by rewrite Hc.
  - destruct Hc as [Hc ->].
    destruct (s !! n) as [[v t']|] eqn:Hn; cbn; [|done].
    case_decide; cbn; (split; [|done]).
    + by apply index_ok_delete.
    + apply index_ok_insert; [|done]. by rewrite Hc.
Qed.

Lemma index_ok_execute_safe p s :
  Forall set_cmd_safe p -> index_ok s ->
  index_ok (execute p s).1 /\ (execute p s).2 = true.
Proof.
  revert s. induction p as [|c p IH]; intros s Hp Hs; [done|].
  inversion_clear Hp as [|? ? Hc Hp']. rewrite execute_cons. cbn [fst snd].
  destruct (index_ok_run_cmd c s Hc Hs) as [Hs1 ->].
  destruct (IH _ Hp' Hs1) as [Hs2 ->]. done.
Qed.

Lemma set_cmds_split key value tags ttl :
  set_cmds key value tags ttl =
  (flat_map (fun tag => [SADD (tags_by_key key) tag;
                         SADD (keys_by_tag tag) key;
                         SADD Tags tag]) tags ++ [SADD CacheKeys key])
  ++ SET key value
     :: (if truthy ttl then [EXPIRE key (default 0%Z ttl)] else []).
Proof. unfold set_cmds. by rewrite <- app_assoc. Qed.

(** The EXPIRE that closes the pipeline of [set], if any: accepted, it
    touches the key only; refused, it touches nothing. *)
Lemma execute_expire_tail (ttl : option Z) key (s : store) :
  (execute (if truthy ttl then [EXPIRE key (default 0%Z ttl)] else []) s).2
  = (if truthy ttl then expire_accepted (default 0%Z ttl) else true).
Proof.
  destruct (truthy ttl); [|done]. cbn.
  destruct (expire_accepted _); [|done].
  destruct (s !! key) as [[v t]|]; [|done]. by case_decide.
Qed.

(** X1.  On a store whose index names hold sets, [set] with a key that
    is not itself an index name leaves a store whose index names still
    hold sets, whatever the tags and the time to live; and it raises
    exactly when it sends an EXPIRE (the [ttl] is true for Python) that
    the server refuses as out of range. *)
Theorem set_keeps_index_ok (key value : string) (tags : list string)
    (ttl : option Z) (s : store) :
  index_ok s -> index_nameb key = false ->
  index_ok (set key value tags ttl s).1 /\
  ((set key value tags ttl s).2 = Ok tt <->
   (truthy ttl = true -> expire_accepted (default 0%Z ttl) = true)).
Proof.
  intros Hs Hkey. unfold set, of_flag. cbn [fst snd].
  rewrite set_cmds_split.
  change (SET key value
          :: (if truthy ttl then [EXPIRE key (default 0%Z ttl)] else []))
    with ([SET key value]
          ++ (if truthy ttl then [EXPIRE key (default 0%Z ttl)] else [])).
  rewrite app_assoc, execute_app. cbn [fst snd].
  destruct (index_ok_execute_safe
              ((flat_map (fun tag => [SADD (tags_by_key key) tag;
                                      SADD (keys_by_tag tag) key;
                                      SADD Tags tag]) tags
                ++ [SADD CacheKeys key]) ++ [SET key value]) s)
    as [Hs1 ->]; [|done|].
  { rewrite !Forall_app. split_and!; [|repeat constructor; cbn; auto with names..].
    apply Forall_forall. intros c Hc.
    rewrite list_elem_of_In, in_flat_map in Hc. destruct Hc as (tag & _ & Hc).
    rewrite <- list_elem_of_In, !elem_of_cons, elem_of_nil in Hc.
    destruct Hc as [ -> |[ -> |[ -> |[]]]]; cbn; auto with names. }
  rewrite execute_expire_tail. cbn [andb]. split.
  - destruct (truthy ttl) eqn:Ht; [|done]. cbn.
    destruct (expire_accepted (default 0%Z ttl)) eqn:Hacc; cbn.
    + destruct (_ !! key) as [[v t]|]; [|done].
      case_decide; [by apply index_ok_delete|].
      apply index_ok_insert; [|done]. by rewrite Hkey.
    + done.
  - destruct (truthy ttl); [|done].
    destruct (expire_accepted (default 0%Z ttl)); [done|].
    split; [done|]. intros H. by specialize (H eq_refl).
Qed.

End with_clock_19.

Section example_20.

#[local] Existing Instance example_clock.

Lemma set_keeps_index_ok_witness :
  let s := (set "User:1" "mitch" ["User"] None ∅).1 in
  index_ok s /\ index_nameb "User:2" = false /\
  index_ok (set "User:2" "foo" ["User"] (Some 60%Z) s).1 /\
  (set "User:2" "foo" ["User"] (Some 60%Z) s).2 = Ok tt /\
  (set "User:2" "foo" ["User"] (Some (2 ^ 63)%Z) s).2 = WrongType.
Proof.
  cbv zeta.
  assert (index_ok (set "User:1" "mitch" ["User"] None ∅).1) as H1
    by (apply (bool_decide_unpack _); vm_compute; exact I).
  assert (index_nameb "User:2" = false) as H2 by reflexivity.
  split; [exact H1|]. split; [exact H2|].
  split; [exact (proj1 (set_keeps_index_ok "User:2" "foo" ["User"]
                          (Some 60%Z) _ H1 H2))|].
  split; [vm_compute; reflexivity|vm_compute; reflexivity].
Defined.

End example_20.

Section with_clock_21.

Context {clk : Clock}.

(** A pipeline of DEL commands is never refused; it removes the keys it
    names and nothing else. *)
Lemma execute_dels p s :
  Forall (fun c => exists n, c = DEL n) p ->
  (execute p s).2 = true /\
  forall n, (execute p s).1 !! n =
            if bool_decide (DEL n ∈ p) then None else s !! n.
Proof.
  intros Hp.
  assert (Forall shrinking p) as Hshr.
  { eapply Forall_impl; [exact Hp|]. by intros c [n ->]. }
  split.
  - apply execute_shrink_ok; [done|]. intros n m Hin. exfalso.
    rewrite Forall_forall in Hp. by destruct (Hp _ Hin) as [n' ?].
  - intros n. rewrite execute_shrink by done.
    assert (rems n p = ∅) as ->.
    { apply set_eq. intros m. rewrite elem_of_rems. split; [|set_solver].
      intros Hin. rewrite Forall_forall in Hp.
      by destruct (Hp _ Hin) as [n' ?]. }
    case_bool_decide; [done|]. apply shrink_id.
Qed.

Lemma clear_tag_cmds_dels tag (l : list string) :
  Forall (fun c => exists n, c = DEL n) (map DEL l ++ [DEL (keys_by_tag tag)]).
Proof.
  apply Forall_app. split; [|repeat constructor; eauto].
  apply Forall_forall. intros c Hc.
  apply list_elem_of_fmap in Hc as (k & -> & _). eauto.
Qed.

Lemma clear_all_cmds_dels (kl tl : list string) :
  Forall (fun c => exists n, c = DEL n)
    (flat_map (fun key => [DEL key; DEL (tags_by_key key)]) kl
     ++ map (fun tag => DEL (keys_by_tag tag)) tl
     ++ [DEL CacheKeys; DEL Tags]).
Proof.
  rewrite !Forall_app. split_and!.
  - apply Forall_forall. intros c Hc.
    rewrite list_elem_of_In, in_flat_map in Hc. destruct Hc as (k & _ & Hc).
    rewrite <- list_elem_of_In, !elem_of_cons, elem_of_nil in Hc.
    destruct Hc as [ -> |[ -> |[]]]; eauto.
  - apply Forall_forall. intros c Hc.
    apply list_elem_of_fmap in Hc as (k & -> & _). eauto.
  - repeat constructor; eauto.
Qed.

(** X2.  On a store whose index names hold sets, [gc] (with any
    arguments), [clear], [clear_tag] and [clear_all] raise nothing, and
    each leaves a store whose index names still hold sets. *)
Theorem sweeps_keep_index_ok (s : store) (keys tags : option (list string))
    (k t : string) :
  index_ok s ->
  ((gc keys tags s).2 = Ok tt /\ index_ok (gc keys tags s).1) /\
  ((clear k s).2 = Ok tt /\ index_ok (clear k s).1) /\
  ((clear_tag t s).2 = Ok tt /\ index_ok (clear_tag t s).1) /\
  ((clear_all s).2 = Ok tt /\ index_ok (clear_all s).1).
Proof.
  intros Hs.
  assert (forall s' keys' tags', index_ok s' ->
            (gc keys' tags' s').2 = Ok tt /\ index_ok (gc keys' tags' s').1)
    as Hgc.
  { intros s' keys' tags' Hs'. split; [|by apply index_ok_gc].
    destruct (gc_index_ok keys' tags' s' Hs')
      as (? & ? & ? & ? & _ & _ & _ & _ & ->). done. }
  split_and!; try by apply Hgc.
  - rewrite clear_unfold. by apply Hgc, index_ok_delete.
  - rewrite clear_unfold. by apply Hgc, index_ok_delete.
  - unfold clear_tag.
    destruct (smembers_is_Ok (keys_by_tag t) s) as [ms ->];
      [apply index_ok_lookup; auto with names|].
    apply Hgc, index_ok_execute; [|done].
    eapply Forall_impl; [apply clear_tag_cmds_dels|]. by intros c [n ->].
  - unfold clear_tag.
    destruct (smembers_is_Ok (keys_by_tag t) s) as [ms ->];
      [apply index_ok_lookup; auto with names|].
    apply Hgc, index_ok_execute; [|done].
    eapply Forall_impl; [apply clear_tag_cmds_dels|]. by intros c [n ->].
  - unfold clear_all.
    destruct (smembers_is_Ok CacheKeys s) as [K ->];
      [apply index_ok_lookup; auto with names|].
    destruct (smembers_is_Ok Tags s) as [T ->];
      [apply index_ok_lookup; auto with names|].
    unfold of_flag. cbn [snd].
    by destruct (execute_dels _ s (clear_all_cmds_dels (elements K) (elements T)))
      as [-> _].
  - unfold clear_all.
    destruct (smembers_is_Ok CacheKeys s) as [K ->];
      [apply index_ok_lookup; auto with names|].
    destruct (smembers_is_Ok Tags s) as [T ->];
      [apply index_ok_lookup; auto with names|].
    unfold of_flag. cbn [fst]. apply index_ok_execute; [|done].
    eapply Forall_impl; [apply clear_all_cmds_dels|]. by intros c [n ->].
Qed.

End with_clock_21.

Section example_22.

#[local] Existing Instance example_clock.

Lemma sweeps_keep_index_ok_witness :
  let s := expired "User:1"
             (set "User:2" "foo" ["User"] None
                (set "User:1" "mitch" ["User"; "PremiumUser"] None ∅).1).1 in
  index_ok s /\
  (gc None None s).2 = Ok tt /\ (clear "User:2" s).2 = Ok tt /\
  (clear_tag "User" s).2 = Ok tt /\ (clear_all s).2 = Ok tt.
Proof.
  cbv zeta.
  assert (index_ok (expired "User:1"
             (set "User:2" "foo" ["User"] None
                (set "User:1" "mitch" ["User"; "PremiumUser"] None ∅).1).1))
    as H by (apply (bool_decide_unpack _); vm_compute; exact I).
  split; [exact H|].
  destruct (sweeps_keep_index_ok _ None None "User:2" "User" H)
    as ((H1 & _) & (H2 & _) & (H3 & _) & (H4 & _)).
  split_and!; [exact H1|exact H2|exact H3|exact H4].
Defined.

End example_22.

Section with_clock_23.

Context {clk : Clock}.

(** ** What a miss and [clear] leave behind *)

(** A sweep leaves every string where it is. *)
Lemma gc_str_kept keys tags (s : store) n v t :
  s !! n = Some (Entry (RStr v) t) ->
  (gc keys tags s).1 !! n = Some (Entry (RStr v) t).
Proof.
  intros Hn.
  destruct (gc_run keys tags s)
    as [ -> |(kl & tl & p & _ & _ & -> & Hshr & HD & _ & Hread)]; [done|].
  cbn [of_flag fst]. rewrite execute_shrink, Hn, shrink_str by done.
  rewrite bool_decide_false; [done|]. rewrite HD.
  intros [(key & Hk & Hex & ->)|(tag & _ & Hcard & ->)].
  - destruct (Hread key Hk Hex) as [ts Hts].
    apply smembers_is_str in Hts. by rewrite Hn in Hts.
  - apply scard_0, smembers_is_str in Hcard. by rewrite Hn in Hcard.
Qed.

(** The sweep for an absent key takes the key out of the key set of each
    tag listed for it. *)
Lemma gc_one_untags (s : store) k ts t :
  index_ok s -> s !! k = None ->
  smembers (tags_by_key k) s = Ok ts -> t ∈ ts ->
  exists Kt, smembers (keys_by_tag t) (gc (Some [k]) None s).1 = Ok Kt /\ k ∉ Kt.
Proof.
  intros Hok Hk Hts Ht.
  destruct (gc_index_ok (Some [k]) None s Hok)
    as (kl & tl & p1 & p2 & Hkl & _ & Hp1 & Hp2 & ->).
  rewrite candidates_Some_cons in Hkl. injection Hkl as <-. cbn [fst].
  pose proof (gc_pipeline_shrinking s _ _ p1 p2 Hp1 Hp2) as Hshr.
  destruct (smembers_is_Ok (keys_by_tag t) s) as [Kt HKt];
    [apply index_ok_lookup; auto with names|].
  eexists. split.
  { eapply smembers_shrink; [exact HKt|by apply execute_shrink]. }
  case_bool_decide; [set_solver|].
  rewrite elem_of_difference, elem_of_rems. intros [_ Hr]. apply Hr.
  apply (gc_pipeline_SREM _ _ _ _ _ Hp1 Hp2). left.
  split_and!; [set_solver|by apply exists_None|]. right. eauto.
Qed.

(** X3.  Reclaiming an orphan on read: on a store whose index names hold
    sets, [get(k)] with [gc] enabled on a key with no entry returns
    [None] without raising, and afterwards [get_tags(k)] is empty, [k] is
    not in [CacheKeys], and [k] is in the key set of none of the tags
    that were listed for it. *)
Theorem get_miss_reclaims_orphan (k : string) (s : store) (ts : gset string) :
  index_ok s -> s !! k = None -> get_tags k s = Ok ts ->
  let r := TaggedCache.get k true s in
  r.2 = Ok None /\
  get_tags k r.1 = Ok ∅ /\
  (exists K, smembers CacheKeys r.1 = Ok K /\ k ∉ K) /\
  (forall t, t ∈ ts -> exists Kt, get_keys t r.1 = Ok Kt /\ k ∉ Kt).
Proof.
  intros Hok Hk Hts r.
  destruct (smembers_is_Ok Tags s) as [T HT];
    [apply index_ok_lookup; auto with names|].
  destruct (gc_one_first s k T Hok Hk HT)
    as (s' & Hgc & Hok' & Hk' & Htbk' & HCK' & _).
  assert (r = (s', Ok None)) as Hr.
  { subst r. unfold TaggedCache.get, Redis.get. by rewrite Hk, Hgc. }
  rewrite Hr. cbn [fst snd]. split_and!; [done| | |].
  - by apply smembers_None.
  - destruct (smembers_is_Ok CacheKeys s') as [K HK];
      [apply index_ok_lookup; auto with names|]. eauto.
  - intros t Ht. unfold get_keys.
    replace s' with (gc (Some [k]) None s).1 by by rewrite Hgc.
    by eapply gc_one_untags.
Qed.

End with_clock_23.

Section example_24.

#[local] Existing Instance example_clock.

Lemma get_miss_reclaims_orphan_witness :
  let s := expired "ExpireMe"
             (set "ExpireMe" "foo" ["A"; "B"] (Some 1%Z) ∅).1 in
  index_ok s /\ s !! "ExpireMe" = None /\
  get_tags "ExpireMe" s = Ok {["A"; "B"]} /\
  (TaggedCache.get "ExpireMe" true s).2 = Ok None /\
  get_tags "ExpireMe" (TaggedCache.get "ExpireMe" true s).1 = Ok ∅.
Proof.
  cbv zeta.
  assert (index_ok (expired "ExpireMe"
             (set "ExpireMe" "foo" ["A"; "B"] (Some 1%Z) ∅).1)) as H1
    by (apply (bool_decide_unpack _); vm_compute; exact I).
  assert (expired "ExpireMe"
             (set "ExpireMe" "foo" ["A"; "B"] (Some 1%Z) ∅).1
          !! "ExpireMe" = None) as H2 by (vm_compute; reflexivity).
  assert (get_tags "ExpireMe" (expired "ExpireMe"
             (set "ExpireMe" "foo" ["A"; "B"] (Some 1%Z) ∅).1)
          = Ok {["A"; "B"]}) as H3 by (vm_compute; reflexivity).
  split_and!; [exact H1|exact H2|exact H3|..].
  - exact (proj1 (get_miss_reclaims_orphan _ _ _ H1 H2 H3)).
  - exact (proj1 (proj2 (get_miss_reclaims_orphan _ _ _ H1 H2 H3))).
Defined.

End example_24.

Section with_clock_25.

Context {clk : Clock}.

(** X4.  On a store whose index names hold sets, [clear(k)] raises
    nothing and leaves no entry under [k], no tag listed for [k], [k]
    outside [CacheKeys] and outside the key set of every tag that was
    listed for it; every other key that holds a string keeps it. *)
Theorem clear_removes_key (k : string) (s : store) (ts : gset string) :
  index_ok s -> get_tags k s = Ok ts ->
  let r := clear k s in
  r.2 = Ok tt /\
  r.1 !! k = None /\
  get_tags k r.1 = Ok ∅ /\
  (exists K, smembers CacheKeys r.1 = Ok K /\ k ∉ K) /\
  (forall t, t ∈ ts -> exists Kt, get_keys t r.1 = Ok Kt /\ k ∉ Kt) /\
  (forall n v t, n <> k -> s !! n = Some (Entry (RStr v) t) ->
                 r.1 !! n = Some (Entry (RStr v) t)).
Proof.
  intros Hok Hts r. subst r. rewrite clear_unfold.
  pose proof (index_ok_delete k s Hok) as Hok0.
  pose proof (lookup_delete_eq s k) as Hk0.
  assert (smembers (tags_by_key k) (delete k s) = Ok ts) as Hts0.
  { unfold get_tags in Hts. rewrite <- Hts. apply smembers_lookup_eq.
    apply lookup_delete_ne. intros Heq. symmetry in Heq.
    by apply tags_by_key_self in Heq. }
  destruct (smembers_is_Ok Tags (delete k s)) as [T HT];
    [apply index_ok_lookup; auto with names|].
  destruct (gc_one_first (delete k s) k T Hok0 Hk0 HT)
    as (s' & Hgc & Hok' & Hk' & Htbk' & HCK' & _).
  split_and!.
  - by rewrite Hgc.
  - by rewrite Hgc.
  - rewrite Hgc. by apply smembers_None.
  - rewrite Hgc. cbn [fst].
    destruct (smembers_is_Ok CacheKeys s') as [K HK];
      [apply index_ok_lookup; auto with names|]. eauto.
  - intros t Ht. by eapply gc_one_untags.
  - intros n v t Hn Hs. apply gc_str_kept. by rewrite lookup_delete_ne.
Qed.

End with_clock_25.

Section example_26.

#[local] Existing Instance example_clock.

Lemma clear_removes_key_witness :
  let s := (set "User:2" "foo" ["User"] None
              (set "User:1" "mitch" ["User"; "PremiumUser"] None ∅).1).1 in
  index_ok s /\ get_tags "User:2" s = Ok {["User"]} /\
  (clear "User:2" s).2 = Ok tt /\
  (clear "User:2" s).1 !! "User:2" = None /\
  get_tags "User:2" (clear "User:2" s).1 = Ok ∅.
Proof.
  cbv zeta.
  assert (index_ok (set "User:2" "foo" ["User"] None
              (set "User:1" "mitch" ["User"; "PremiumUser"] None ∅).1).1)
    as H1 by (apply (bool_decide_unpack _); vm_compute; exact I).
  assert (get_tags "User:2" (set "User:2" "foo" ["User"] None
              (set "User:1" "mitch" ["User"; "PremiumUser"] None ∅).1).1
          = Ok {["User"]}) as H2 by (vm_compute; reflexivity).
  split_and!; [exact H1|exact H2|..].
  - exact (proj1 (clear_removes_key _ _ _ H1 H2)).
  - exact (proj1 (proj2 (clear_removes_key _ _ _ H1 H2))).
  - exact (proj1 (proj2 (proj2 (clear_removes_key _ _ _ H1 H2)))).
Defined.

End example_26.

Section with_clock_27.

Context {clk : Clock}.

(** ** What [clear_tag] and [clear_all] delete, and what they leave *)

Lemma sweeps_keep_index_ok_aux (s : store) (t : string) :
  index_ok s -> index_ok (clear_tag t s).1 /\ (clear_tag t s).2 = Ok tt.
Proof.
  intros Hs. unfold clear_tag.
  destruct (smembers_is_Ok (keys_by_tag t) s) as [ms ->];
    [apply index_ok_lookup; auto with names|].
  set (s1 := (execute _ s).1).
  assert (index_ok s1) as Hs1.
  { apply index_ok_execute; [|done].
    eapply Forall_impl; [apply clear_tag_cmds_dels|]. by intros c [n ->]. }
  split; [by apply index_ok_gc|].
  destruct (gc_index_ok (Some (elements ms)) None s1 Hs1)
    as (? & ? & ? & ? & _ & _ & _ & _ & ->). done.
Qed.

Lemma candidates_Some_elements (ms : gset string) root s k :
  k ∈ ms -> candidates (Some (elements ms)) root s = Ok (elements ms).
Proof.
  intros Hk. unfold candidates. cbn.
  destruct (elements ms) as [|x l] eqn:Hl; [|done].
  apply elements_empty_inv in Hl. set_solver.
Qed.

Lemma clear_tag_reconciles (t : string) (s : store)
    (ms : gset string) :
  index_ok s -> get_keys t s = Ok ms ->
  let r := clear_tag t s in
  get_keys t r.1 = Ok ∅ /\
  (forall k, k ∈ ms ->
     r.1 !! k = None /\ get_tags k r.1 = Ok ∅ /\
     exists K, smembers CacheKeys r.1 = Ok K /\ k ∉ K) /\
  (forall n v ttl, n ∉ ms -> n <> keys_by_tag t ->
     s !! n = Some (Entry (RStr v) ttl) ->
     r.1 !! n = Some (Entry (RStr v) ttl)).
Proof.
  intros Hok Hms r.
  destruct (clear_tag_deletes_members t s ms Hms) as [Hgone Hset].
  fold r in Hgone, Hset.
  assert (index_ok r.1) as Hok'
    by (by destruct (sweeps_keep_index_ok_aux s t Hok)).
  split_and!.
  - by apply smembers_None.
  - intros k Hk. split; [by apply Hgone|].
    subst r. unfold clear_tag in *. unfold get_keys in Hms.
    rewrite Hms in *.
    set (p := map DEL (elements ms) ++ [DEL (keys_by_tag t)]) in *.
    destruct (execute_dels p s (clear_tag_cmds_dels t (elements ms)))
      as [_ Hl].
    set (s1 := (execute p s).1) in *.
    assert (index_ok s1) as Hok1.
    { apply index_ok_execute; [|done].
      eapply Forall_impl; [apply clear_tag_cmds_dels|]. by intros c [n ->]. }
    assert (exists_ k s1 = false) as Hex.
    { apply exists_None. subst s1. rewrite Hl, bool_decide_true; [done|].
      apply elem_of_app. left. apply list_elem_of_fmap. exists k.
      by rewrite elem_of_elements. }
    destruct (gc_index_ok (Some (elements ms)) None s1 Hok1)
      as (kl & tl & p1 & p2 & Hkl & _ & Hp1 & Hp2 & Hgc).
    rewrite (candidates_Some_elements ms _ _ k Hk) in Hkl.
    injection Hkl as <-. rewrite Hgc in *. cbn [fst] in *.
    pose proof (gc_pipeline_shrinking s1 _ _ p1 p2 Hp1 Hp2) as Hshr.
    split.
    + apply smembers_None. rewrite execute_shrink by done.
      rewrite bool_decide_true; [done|].
      apply (gc_pipeline_DEL _ _ _ _ _ Hp1 Hp2). left. exists k.
      by rewrite elem_of_elements.
    + destruct (smembers_is_Ok CacheKeys s1) as [K HK];
        [apply index_ok_lookup; auto with names|].
      eexists. split.
      { eapply smembers_shrink; [exact HK|by apply execute_shrink]. }
      case_bool_decide; [set_solver|].
      rewrite elem_of_difference, elem_of_rems. intros [_ Hr]. apply Hr.
      apply (gc_pipeline_SREM _ _ _ _ _ Hp1 Hp2). left.
      rewrite elem_of_elements. split_and!; [done|done|by left].
  - intros n v ttl Hn Hne Hs. subst r. unfold clear_tag.
    unfold get_keys in Hms. rewrite Hms. apply gc_str_kept.
    destruct (execute_dels _ s (clear_tag_cmds_dels t (elements ms)))
      as [_ ->].
    rewrite bool_decide_false; [done|]. rewrite elem_of_app.
    intros [Hin|Hin].
    + apply list_elem_of_fmap in Hin as (k & [= ->] & Hk).
      by rewrite elem_of_elements in Hk.
    + apply list_elem_of_singleton in Hin. congruence.
Qed.

(** X5.  On a store whose index names hold sets, [clear_tag(t)] leaves
    the key set of [t] empty, and for every key that was in it: no entry
    under the key, no tag listed for it, and the key outside [CacheKeys].
    A key that holds a string, was not in the key set and is not the
    name of the key set keeps its string: only the members of the tag
    are invalidated. *)
Theorem clear_tag_invalidates_members (t : string) (s : store)
    (ms : gset string) :
  index_ok s -> get_keys t s = Ok ms ->
  let r := clear_tag t s in
  get_keys t r.1 = Ok ∅ /\
  (forall k, k ∈ ms ->
     r.1 !! k = None /\ get_tags k r.1 = Ok ∅ /\
     exists K, smembers CacheKeys r.1 = Ok K /\ k ∉ K) /\
  (forall n v ttl, n ∉ ms -> n <> keys_by_tag t ->
     s !! n = Some (Entry (RStr v) ttl) ->
     r.1 !! n = Some (Entry (RStr v) ttl)).
Proof. apply clear_tag_reconciles. Qed.

End with_clock_27.

Section example_28.

#[local] Existing Instance example_clock.

Lemma clear_tag_invalidates_members_witness :
  let s := (set "Post:2" "again" ["Post"] None
              (set "Post:1" "Hello" ["Post"] None
                 (set "User:1" "mitch" ["User"] None ∅).1).1).1 in
  index_ok s /\ get_keys "Post" s = Ok {["Post:1"; "Post:2"]} /\
  get_keys "Post" (clear_tag "Post" s).1 = Ok ∅ /\
  (clear_tag "Post" s).1 !! "User:1" = Some (Entry (RStr "mitch") None).
Proof.
  cbv zeta.
  assert (index_ok (set "Post:2" "again" ["Post"] None
              (set "Post:1" "Hello" ["Post"] None
                 (set "User:1" "mitch" ["User"] None ∅).1).1).1) as H1
    by (apply (bool_decide_unpack _); vm_compute; exact I).
  assert (get_keys "Post" (set "Post:2" "again" ["Post"] None
              (set "Post:1" "Hello" ["Post"] None
                 (set "User:1" "mitch" ["User"] None ∅).1).1).1
          = Ok {["Post:1"; "Post:2"]}) as H2 by (vm_compute; reflexivity).
  split_and!; [exact H1|exact H2|..].
  - exact (proj1 (clear_tag_invalidates_members _ _ _ H1 H2)).
  - apply (proj2 (proj2 (clear_tag_invalidates_members _ _ _ H1 H2))).
    + vm_compute. intros H. discriminate H.
    + discriminate.
    + vm_compute. reflexivity.
Defined.

End example_28.

Section with_clock_29.

Context {clk : Clock}.

Lemma clear_all_DEL (s : store) n :
  DEL n ∈ flat_map (fun key => [DEL key; DEL (tags_by_key key)])
            (elements (members CacheKeys s))
          ++ map (fun tag => DEL (keys_by_tag tag)) (elements (members Tags s))
          ++ [DEL CacheKeys; DEL Tags]
  <-> named (fun _ => False) (fun _ => False) s n.
Proof.
  unfold named. rewrite !elem_of_app, list_elem_of_In, in_flat_map.
  setoid_rewrite <- list_elem_of_In. rewrite list_elem_of_fmap.
  setoid_rewrite elem_of_elements.
  rewrite !elem_of_cons, elem_of_nil. split.
  - intros [(k & Hk & Hc)|[(t & Heq & Ht)|[?|[?|[]]]]].
    + right; right; left. exists k. split; [by left|].
      rewrite !elem_of_cons, elem_of_nil in Hc.
      destruct Hc as [?|[?|[]]]; [left|right]; congruence.
    + right; right; right. exists t. split; [by left|]. congruence.
    + left. congruence.
    + right; left. congruence.
  - intros [ -> |[ -> |[(k & [Hk|[]] & Hn)|(t & [Ht|[]] & ->)]]]; eauto 8.
    left. exists k. split; [done|].
    rewrite !elem_of_cons, elem_of_nil. destruct Hn as [ -> | -> ]; eauto.
Qed.

(** X6.  When both root sets can be read, [clear_all] raises nothing; it
    deletes the two roots, every key listed in [CacheKeys] with its
    [tags-by-key] set, and the [keys-by-tag] set of every tag listed in
    [Tags], and it leaves every other entry of the store exactly as it
    was: an entry the roots do not name survives the reset. *)
Theorem clear_all_deletes_what_roots_name (s : store) :
  is_str (s !! CacheKeys) = false -> is_str (s !! Tags) = false ->
  (clear_all s).2 = Ok tt /\
  (forall n, named (fun _ => False) (fun _ => False) s n ->
             (clear_all s).1 !! n = None) /\
  (forall n, ~ named (fun _ => False) (fun _ => False) s n ->
             (clear_all s).1 !! n = s !! n).
Proof.
  intros HK HT. unfold clear_all.
  rewrite (members_smembers _ _ HK), (members_smembers _ _ HT).
  destruct (execute_dels _ s
              (clear_all_cmds_dels (elements (members CacheKeys s))
                                   (elements (members Tags s))))
    as [Hflag Hl].
  unfold of_flag. cbn [fst snd]. rewrite Hflag. split_and!; [done| |].
  - intros n Hn. rewrite Hl, bool_decide_true; [done|].
    by apply clear_all_DEL.
  - intros n Hn. rewrite Hl, bool_decide_false; [done|].
    by rewrite clear_all_DEL.
Qed.

End with_clock_29.

Section example_30.

#[local] Existing Instance example_clock.

Lemma clear_all_deletes_what_roots_name_witness :
  let s := <["stray" := Entry (RStr "x") None]>
             (set "User:1" "mitch" ["User"] None ∅).1 in
  is_str (s !! CacheKeys) = false /\ is_str (s !! Tags) = false /\
  (clear_all s).2 = Ok tt /\
  (clear_all s).1 !! "User:1" = None /\
  (clear_all s).1 !! "stray" = Some (Entry (RStr "x") None).
Proof.
  cbv zeta.
  assert (is_str ((<["stray" := Entry (RStr "x") None]>
             (set "User:1" "mitch" ["User"] None ∅).1) !! CacheKeys) = false)
    as H1 by (vm_compute; reflexivity).
  assert (is_str ((<["stray" := Entry (RStr "x") None]>
             (set "User:1" "mitch" ["User"] None ∅).1) !! Tags) = false)
    as H2 by (vm_compute; reflexivity).
  split_and!; [exact H1|exact H2|..].
  - exact (proj1 (clear_all_deletes_what_roots_name _ H1 H2)).
  - vm_compute. reflexivity.
  - vm_compute. reflexivity.
Defined.

End example_30.

Section with_clock_31.

Context {clk : Clock}.

(** X7.  When [CacheKeys] or [Tags] holds a string, [clear_all] raises
    at its read of that root, before anything is sent: the store is
    unchanged. *)
Theorem clear_all_raises_on_string_root (s : store) :
  is_str (s !! CacheKeys) = true \/ is_str (s !! Tags) = true ->
  clear_all s = (s, WrongType).
Proof.
  intros H. unfold clear_all, smembers.
  destruct (s !! CacheKeys) as [[[v|ms] t]|]; cbn in H; try done;
    destruct (s !! Tags) as [[[v'|ms'] t']|]; cbn in H; try done;
    by destruct H.
Qed.

End with_clock_31.

Section example_32.

#[local] Existing Instance example_clock.

Lemma clear_all_raises_on_string_root_witness :
  let s := (set "Tags" "v" ["A"] None ∅).1 in
  (is_str (s !! CacheKeys) = true \/ is_str (s !! Tags) = true) /\
  clear_all s = (s, WrongType).
Proof.
  cbv zeta.
  assert (is_str ((set "Tags" "v" ["A"] None ∅).1 !! CacheKeys) = true \/
          is_str ((set "Tags" "v" ["A"] None ∅).1 !! Tags) = true) as H
    by (right; vm_compute; reflexivity).
  split; [exact H|]. exact (clear_all_raises_on_string_root _ H).
Defined.

End example_32.

Section with_clock_33.

Context {clk : Clock}.

(** ** What [set] writes, and what it leaves *)

Lemma grow_empty o : grow ∅ o = o.
Proof.
  destruct o as [[[v|ms] t]|]; cbn; try done.
  do 3 f_equal. set_solver.
Qed.

Lemma grow_ext A A' o : (forall m, m ∈ A <-> m ∈ A') -> grow A o = grow A' o.
Proof. intros H. by assert (A = A') as -> by by apply set_eq. Qed.

(** Under a key on which the pipeline only runs SADD. *)
Lemma execute_sadd_lookup p s n :
  (forall c, c ∈ p -> cmd_name c = n -> exists m, c = SADD n m) ->
  (execute p s).1 !! n = grow (adds n p) (s !! n).
Proof.
  revert s. induction p as [|c p IH]; intros s Hp.
  - cbn. by rewrite grow_empty.
  - rewrite execute_cons. cbn [fst].
    rewrite IH by (intros c' Hc'; apply Hp; by right).
    destruct (decide (cmd_name c = n)) as [Hn|Hn].
    + destruct (Hp c ltac:(left) Hn) as [m ->]. cbn in Hn. subst.
      cbn [adds]. rewrite decide_True by done. cbn [run_cmd].
      destruct (s !! n) as [[[v|ms] t]|] eqn:Hs; cbn [fst].
      * by rewrite Hs.
      * rewrite lookup_insert_eq. cbn. do 3 f_equal. set_solver.
      * rewrite lookup_insert_eq. cbn.
        rewrite decide_False by set_solver. done.
    + rewrite run_cmd_other by done. apply grow_ext. intros m.
      rewrite !elem_of_adds, elem_of_cons. split; [by right|].
      intros [Heq|?]; [|done]. subst c. by cbn in Hn.
Qed.

(** Every command of [set] on a name other than the key is an SADD. *)
Lemma set_cmds_other key value tags ttl n c :
  n <> key -> c ∈ set_cmds key value tags ttl -> cmd_name c = n ->
  exists m, c = SADD n m.
Proof.
  intros Hn Hc Hname. apply set_cmds_elem in Hc
    as [(tag & Htag & [ -> |[ -> | -> ]])|[ -> |[ -> |[_ ->]]]];
    cbn in Hname; subst; eauto; done.
Qed.

Lemma set_lookup_other key value tags ttl s n :
  n <> key ->
  (set key value tags ttl s).1 !! n =
  grow (adds n (set_cmds key value tags ttl)) (s !! n).
Proof.
  intros Hn. unfold set. cbn [of_flag fst]. apply execute_sadd_lookup.
  intros c. by apply set_cmds_other.
Qed.

(** The members [set] adds under each name. *)
Lemma set_adds_elem key value tags ttl n m :
  m ∈ adds n (set_cmds key value tags ttl) <->
  (n = tags_by_key key /\ m ∈ tags) \/
  (m = key /\ exists tag, tag ∈ tags /\ n = keys_by_tag tag) \/
  (n = Tags /\ m ∈ tags) \/
  (n = CacheKeys /\ m = key).
Proof.
  rewrite elem_of_adds, set_cmds_elem. split.
  - intros [(tag & Htag & [[= -> ->]|[[= -> ->]|[= -> ->]]])
           |[[= -> ->]|[?|[_ ?]]]]; try done; eauto 8.
  - intros [[ -> Hm]|[[ -> (tag & Htag & ->)]|[[ -> Hm]|[ -> ->]]]]; eauto 8.
Qed.

(** Under the key itself: the SET, then the EXPIRE if any. *)
Lemma set_lookup_key_ttl key value tags ttl s :
  (set key value tags ttl s).1 !! key =
  if truthy ttl && expire_accepted (default 0%Z ttl) then
    if decide (default 0 ttl <= 0)%Z then None
    else Some (Entry (RStr value) (Some (default 0%Z ttl)))
  else Some (Entry (RStr value) None).
Proof.
  unfold set, set_cmds. cbn [of_flag fst].
  change [SADD CacheKeys key; SET key value]
    with ([SADD CacheKeys key] ++ [SET key value]).
  rewrite !app_assoc, execute_app. cbn [fst].
  rewrite execute_app.
  set (s1 := (execute (_ ++ [SADD CacheKeys key]) s).1).
  cbn [execute run_cmd fst].
  destruct (truthy ttl); cbn.
  - destruct (expire_accepted (default 0%Z ttl)); cbn.
    + rewrite lookup_insert_eq. case_decide; cbn.
      * by rewrite lookup_delete_eq.
      * by rewrite lookup_insert_eq.
    + by rewrite lookup_insert_eq.
  - by rewrite lookup_insert_eq.
Qed.

(** X8.  Round trip: after [set(k, v, tags, ttl)] with no time to live
    or one that is not negative, [get(k)] returns [v], with or without
    [gc], and changes nothing.  The entry carries the time to live when
    it is true for Python (not [0]) and the server accepts it, and none
    otherwise: for [0] no EXPIRE is sent, and one that is out of range is
    refused (then [set] has raised, with the value stored). *)
Theorem set_then_get (k v : string) (tags : list string) (ttl : option Z)
    (g : bool) (s : store) :
  (forall t, ttl = Some t -> (0 <= t)%Z) ->
  let s' := (set k v tags ttl s).1 in
  TaggedCache.get k g s' = (s', Ok (Some v)) /\
  ttl_of (s' !! k) =
    if truthy ttl && expire_accepted (default 0%Z ttl) then ttl else None.
Proof.
  intros Httl s'.
  assert (s' !! k =
          Some (Entry (RStr v)
                  (if truthy ttl && expire_accepted (default 0%Z ttl)
                   then ttl else None)))
    as Hk.
  { subst s'. rewrite set_lookup_key_ttl.
    destruct ttl as [t|]; cbn; [|done].
    destruct (Z.eqb_spec t 0); cbn; [done|].
    destruct (expire_accepted t); [|done].
    specialize (Httl t eq_refl). rewrite decide_False by lia. done. }
  split.
  - unfold TaggedCache.get, Redis.get. by rewrite Hk.
  - by rewrite Hk.
Qed.

End with_clock_33.

Section example_34.

#[local] Existing Instance example_clock.

Lemma set_then_get_witness :
  (forall t, Some 60%Z = Some t -> (0 <= t)%Z) /\
  TaggedCache.get "k" true (set "k" "v" ["A"] (Some 60%Z) ∅).1
  = ((set "k" "v" ["A"] (Some 60%Z) ∅).1, Ok (Some "v")) /\
  ttl_of ((set "k" "v" ["A"] (Some 60%Z) ∅).1 !! "k") = Some 60%Z.
Proof.
  assert (forall t, Some 60%Z = Some t -> (0 <= t)%Z) as H
    by (intros t [= <-]; lia).
  split; [exact H|].
  exact (set_then_get "k" "v" ["A"] (Some 60%Z) true ∅ H).
Defined.

End example_34.

Section with_clock_35.

Context {clk : Clock}.

(** X9.  A negative time to live is true for Python, so the EXPIRE is
    sent; when the timeout is within the range the server accepts, the
    server removes the key at once: after [set(k, v, tags, ttl)] with
    such a [ttl < 0] there is no entry under [k] and [get(k, gc=False)]
    returns [None], while [k] has been entered in [CacheKeys] (when that
    root could be read and is not [k] itself): the key is an orphan from
    the start. *)
Theorem set_negative_ttl_leaves_orphan (k v : string) (tags : list string)
    (t : Z) (s : store) (K : gset string) :
  (t < 0)%Z -> expire_accepted t = true ->
  k <> CacheKeys -> smembers CacheKeys s = Ok K ->
  let s' := (set k v tags (Some t) s).1 in
  s' !! k = None /\
  TaggedCache.get k false s' = (s', Ok None) /\
  smembers CacheKeys s' = Ok (K ∪ {[k]}).
Proof.
  intros Ht Hacc Hk HK s'.
  assert (s' !! k = None) as Hl.
  { subst s'. rewrite set_lookup_key_ttl. cbn.
    destruct (Z.eqb_spec t 0); [lia|]. cbn. rewrite Hacc.
    by rewrite decide_True by lia. }
  split_and!; [done| |].
  - unfold TaggedCache.get, Redis.get. by rewrite Hl.
  - subst s'. unfold set. cbn [of_flag fst].
    rewrite (execute_sadd_only _ _ _ K); [| |done].
    + f_equal. f_equal. apply set_eq. intros m.
      rewrite set_adds_elem, elem_of_singleton. split.
      * intros [[? _]|[[_ (? & _ & ?)]|[[? _]|[_ ?]]]]; try done; clash.
      * intros ->. eauto 8.
    + intros c. apply set_cmds_other. congruence.
Qed.

End with_clock_35.

Section example_36.

#[local] Existing Instance example_clock.

Lemma set_negative_ttl_leaves_orphan_witness :
  ((-1) < 0)%Z /\ expire_accepted (-1) = true /\
  "k" <> CacheKeys /\ smembers CacheKeys ∅ = Ok ∅ /\
  (set "k" "v" ["A"] (Some (-1)%Z) ∅).1 !! "k" = None /\
  smembers CacheKeys (set "k" "v" ["A"] (Some (-1)%Z) ∅).1 = Ok (∅ ∪ {["k"]}).
Proof.
  assert ((-1) < 0)%Z as H1 by lia.
  assert (expire_accepted (-1) = true) as Ha by (vm_compute; reflexivity).
  assert ("k" <> CacheKeys) as H2 by discriminate.
  assert (smembers CacheKeys ∅ = Ok ∅) as H3 by reflexivity.
  split_and!; [exact H1|exact Ha|exact H2|exact H3|..].
  - exact (proj1 (set_negative_ttl_leaves_orphan "k" "v" ["A"] _ ∅ ∅
                    H1 Ha H2 H3)).
  - exact (proj2 (proj2
      (set_negative_ttl_leaves_orphan "k" "v" ["A"] _ ∅ ∅ H1 Ha H2 H3))).
Defined.

End example_36.

Section with_clock_37.

Context {clk : Clock}.

Lemma grow_str A o v t :
  o = Some (Entry (RStr v) t) -> grow A o = o.
Proof. by intros ->. Qed.

Lemma ttl_of_grow A o : ttl_of (grow A o) = ttl_of o.
Proof.
  destruct o as [[[v|ms] t]|]; cbn; try done. by case_decide.
Qed.

(** X10.  [set] leaves every other key's primary entry alone and puts a
    time to live on nothing but its own key: under any name other than
    the key, a string is unchanged, and the time to live is the one that
    was there (none for a set it creates). *)
Theorem set_frame (key value : string) (tags : list string) (ttl : option Z)
    (s : store) (n : string) :
  n <> key ->
  let s' := (set key value tags ttl s).1 in
  (forall v t, s !! n = Some (Entry (RStr v) t) ->
               s' !! n = Some (Entry (RStr v) t)) /\
  ttl_of (s' !! n) = ttl_of (s !! n).
Proof.
  intros Hn s'. subst s'. rewrite set_lookup_other by done. split.
  - intros v t Hs. rewrite Hs. done.
  - apply ttl_of_grow.
Qed.

End with_clock_37.

Section example_38.

#[local] Existing Instance example_clock.

Lemma set_frame_witness :
  let s := (set "User:1" "mitch" ["User"] (Some 60%Z) ∅).1 in
  "User:1" <> "User:2" /\
  (set "User:2" "foo" ["User"] (Some 5%Z) s).1 !! "User:1"
  = Some (Entry (RStr "mitch") (Some 60%Z)).
Proof.
  cbv zeta.
  assert ("User:1" <> "User:2") as H by discriminate.
  split; [exact H|].
  apply (proj1 (set_frame "User:2" "foo" ["User"] (Some 5%Z) _ "User:1" H)).
  vm_compute. reflexivity.
Defined.

End example_38.

Section with_clock_39.

Context {clk : Clock}.

(** X11.  [set] enters its key in [CacheKeys] and its tags in [Tags]:
    when the root could be read before and the key is not the root's own
    name, the root afterwards holds what it held, united with the key,
    respectively with the distinct tags. *)
Theorem set_enters_roots (key value : string) (tags : list string)
    (ttl : option Z) (s : store) :
  let s' := (set key value tags ttl s).1 in
  (forall K, key <> CacheKeys -> smembers CacheKeys s = Ok K ->
             smembers CacheKeys s' = Ok (K ∪ {[key]})) /\
  (forall T, key <> Tags -> smembers Tags s = Ok T ->
             smembers Tags s' = Ok (T ∪ list_to_set tags)).
Proof.
  intros s'. subst s'. unfold set. cbn [of_flag fst]. split.
  - intros K Hk HK. rewrite (execute_sadd_only _ _ _ K); [| |done].
    + f_equal. f_equal. apply set_eq. intros m.
      rewrite set_adds_elem, elem_of_singleton. split.
      * intros [[? _]|[[_ (? & _ & ?)]|[[? _]|[_ ?]]]]; try done; clash.
      * intros ->. eauto 8.
    + intros c. apply set_cmds_other. congruence.
  - intros T Hk HT. rewrite (execute_sadd_only _ _ _ T); [| |done].
    + f_equal. f_equal. apply set_eq. intros m.
      rewrite set_adds_elem, elem_of_list_to_set. split.
      * intros [[? _]|[[_ (? & _ & ?)]|[[_ ?]|[? _]]]]; try done; clash.
      * intros Hm. eauto 8.
    + intros c. apply set_cmds_other. congruence.
Qed.

End with_clock_39.

Section example_40.

#[local] Existing Instance example_clock.

Lemma set_enters_roots_witness :
  "User:1" <> CacheKeys /\ smembers CacheKeys ∅ = Ok ∅ /\
  smembers CacheKeys (set "User:1" "mitch" ["User"] None ∅).1
  = Ok (∅ ∪ {["User:1"]}).
Proof.
  assert ("User:1" <> CacheKeys) as H1 by discriminate.
  assert (smembers CacheKeys ∅ = Ok ∅) as H2 by reflexivity.
  split_and!; [exact H1|exact H2|].
  exact (proj1 (set_enters_roots "User:1" "mitch" ["User"] None ∅) ∅ H1 H2).
Defined.

End example_40.

Section with_clock_41.

Context {clk : Clock}.

Lemma is_str_run_sadd n m (s : store) n' :
  is_str ((run_cmd (SADD n m) s).1 !! n') = is_str (s !! n').
Proof.
  destruct (decide (n = n')) as [ <- |Hn].
  - cbn. destruct (s !! n) as [[[v|ms] t]|] eqn:Hs; cbn;
      by rewrite ?lookup_insert_eq, ?Hs.
  - by rewrite run_cmd_other.
Qed.

(** A pipeline of SADD commands is refused exactly where it meets a
    string. *)
Lemma execute_sadds_flag p (s : store) :
  Forall (fun c => exists n m, c = SADD n m) p ->
  (execute p s).2 = forallb (fun c => negb (is_str (s !! cmd_name c))) p.
Proof.
  revert s. induction p as [|c p IH]; intros s Hp; [done|].
  inversion_clear Hp as [|? ? (n & m & ->) Hp'].
  rewrite execute_cons. cbn [snd forallb cmd_name]. f_equal.
  - cbn. by destruct (s !! n) as [[[v|ms] t]|].
  - rewrite IH by done. clear. induction p as [|c p IH]; [done|].
    cbn [forallb]. by rewrite IH, is_str_run_sadd.
Qed.

(** The SADDs of [set] are all accepted exactly when none meets a
    string. *)
Lemma set_sadds_flag (key : string) (tags : list string) (s : store) :
  forallb (fun c => negb (is_str (s !! cmd_name c)))
    (flat_map (fun tag => [SADD (tags_by_key key) tag;
                           SADD (keys_by_tag tag) key;
                           SADD Tags tag]) tags ++ [SADD CacheKeys key])
  = true <->
  is_str (s !! CacheKeys) = false /\
  forall t, t ∈ tags ->
    is_str (s !! tags_by_key key) = false /\
    is_str (s !! keys_by_tag t) = false /\
    is_str (s !! Tags) = false.
Proof.
  rewrite forallb_forall. setoid_rewrite <- list_elem_of_In. split.
  - intros Hf.
    assert (forall c, c ∈ flat_map (fun tag => [SADD (tags_by_key key) tag;
                           SADD (keys_by_tag tag) key;
                           SADD Tags tag]) tags ++ [SADD CacheKeys key] ->
                      is_str (s !! cmd_name c) = false) as Hc.
    { intros c Hc. by apply negb_true_iff, Hf. }
    assert (forall t c, t ∈ tags ->
              c ∈ [SADD (tags_by_key key) t; SADD (keys_by_tag t) key;
                   SADD Tags t] ->
              is_str (s !! cmd_name c) = false) as Hct.
    { intros t c Ht Hin. apply Hc, elem_of_app. left.
      rewrite list_elem_of_In, in_flat_map. exists t.
      by rewrite <- !list_elem_of_In. }
    split.
    + apply (Hc (SADD CacheKeys key)), elem_of_app. right.
      by apply list_elem_of_singleton.
    + intros t Ht. split_and!.
      * apply (Hct t (SADD (tags_by_key key) t) Ht). set_solver.
      * apply (Hct t (SADD (keys_by_tag t) key) Ht). set_solver.
      * apply (Hct t (SADD Tags t) Ht). set_solver.
  - intros [HK Ht] c Hc. apply negb_true_iff.
    apply elem_of_app in Hc as [Hc|Hc].
    + rewrite list_elem_of_In, in_flat_map in Hc.
      destruct Hc as (tag & Htag & Hc).
      rewrite <- list_elem_of_In in Htag.
      rewrite <- list_elem_of_In, !elem_of_cons, elem_of_nil in Hc.
      destruct (Ht tag Htag) as (? & ? & ?).
      by destruct Hc as [ -> |[ -> |[ -> |[]]]].
    + apply list_elem_of_singleton in Hc as ->. done.
Qed.

Lemma set_flag_iff (key value : string) (tags : list string)
    (ttl : option Z) (s : store) :
  (set key value tags ttl s).2 = Ok tt <->
  (is_str (s !! CacheKeys) = false /\
   forall t, t ∈ tags ->
     is_str (s !! tags_by_key key) = false /\
     is_str (s !! keys_by_tag t) = false /\
     is_str (s !! Tags) = false) /\
  (truthy ttl = true -> expire_accepted (default 0%Z ttl) = true).
Proof.
  unfold set, of_flag. cbn [snd]. rewrite set_cmds_split, execute_app.
  cbn [snd]. rewrite execute_cons. cbn [run_cmd fst snd andb].
  rewrite execute_expire_tail, execute_sadds_flag.
  2:{ apply Forall_app. split; [|repeat constructor; eauto].
      apply Forall_forall. intros c Hc.
      rewrite list_elem_of_In, in_flat_map in Hc.
      destruct Hc as (tag & _ & Hc).
      rewrite <- list_elem_of_In, !elem_of_cons, elem_of_nil in Hc.
      destruct Hc as [ -> |[ -> |[ -> |[]]]]; eauto. }
  rewrite <- set_sadds_flag.
  destruct (forallb _ _); cbn.
  - destruct (truthy ttl); [|by intuition].
    destruct (expire_accepted (default 0%Z ttl)); [by intuition|].
    split; [done|]. intros [_ H]. by specialize (H eq_refl).
  - split; [done|]. by intros [? _].
Qed.

(** X12.  [set] raises exactly when the server refuses one of its
    commands: an SADD because the index name it adds to holds a string
    ([CacheKeys], or, when there is a tag, [Tags], the key's
    [tags-by-key] name or a tag's [keys-by-tag] name), or the EXPIRE,
    sent when [ttl] is true for Python, because the timeout is out of
    the range the server accepts.  (Its commands have all run by
    then.) *)
Theorem set_raises_iff (key value : string) (tags : list string)
    (ttl : option Z) (s : store) :
  (set key value tags ttl s).2 = Ok tt <->
  (is_str (s !! CacheKeys) = false /\
   forall t, t ∈ tags ->
     is_str (s !! tags_by_key key) = false /\
     is_str (s !! keys_by_tag t) = false /\
     is_str (s !! Tags) = false) /\
  (truthy ttl = true -> expire_accepted (default 0%Z ttl) = true).
Proof. apply set_flag_iff. Qed.

(** X13.  Only the set of distinct tags matters to [set]: two tag lists
    with the same members, whatever their order and duplicates, give the
    same store and the same outcome. *)
Theorem set_tags_as_a_set (key value : string) (tags1 tags2 : list string)
    (ttl : option Z) (s : store) :
  (forall t, t ∈ tags1 <-> t ∈ tags2) ->
  set key value tags1 ttl s = set key value tags2 ttl s.
Proof.
  intros Htags. apply injective_projections.
  - apply map_eq. intros n. destruct (decide (n = key)) as [ -> |Hn].
    + by rewrite !set_lookup_key_ttl.
    + rewrite !set_lookup_other by done. apply grow_ext. intros m.
      rewrite !set_adds_elem. by setoid_rewrite Htags.
  - pose proof (set_flag_iff key value tags1 ttl s) as H1.
    pose proof (set_flag_iff key value tags2 ttl s) as H2.
    setoid_rewrite Htags in H1. rewrite <- H2 in H1.
    destruct (set key value tags1 ttl s).2 as [[]|],
             (set key value tags2 ttl s).2 as [[]|]; try done.
    + by destruct (proj1 H1 eq_refl).
    + by destruct (proj2 H1 eq_refl).
Qed.

End with_clock_41.

Section example_42.

#[local] Existing Instance example_clock.

Lemma set_tags_as_a_set_witness :
  (forall t, t ∈ ["A"; "B"; "A"] <-> t ∈ ["B"; "A"]) /\
  set "k" "v" ["A"; "B"; "A"] None ∅ = set "k" "v" ["B"; "A"] None ∅.
Proof.
  assert (forall t : string, t ∈ ["A"; "B"; "A"] <-> t ∈ ["B"; "A"]) as H
    by (intros t; rewrite !elem_of_cons, elem_of_nil; tauto).
  split; [exact H|].
  exact (set_tags_as_a_set "k" "v" _ _ None ∅ H).
Defined.

End example_42.

Section with_clock_43.

Context {clk : Clock}.

(** ** What a sweep never does, and when it does nothing *)

Lemma smembers_members n (s : store) ms :
  smembers n s = Ok ms -> members n s = ms.
Proof.
  unfold smembers, members.
  destruct (s !! n) as [[[v|ms'] t]|]; by intros [= <-].
Qed.

Lemma gc_only_removes_aux (s : store) (keys tags : option (list string))
    (n : string) :
  members n (gc keys tags s).1 ⊆ members n s.
Proof.
  destruct (gc_run keys tags s)
    as [ -> |(kl & tl & p & _ & _ & -> & Hshr & _)]; [done|].
  cbn [of_flag fst].
  rewrite (members_shrink n s _ _ _ (execute_shrink p s n Hshr)).
  case_bool_decide; set_solver.
Qed.

(** X14.  A sweep only removes: whatever its arguments and whether or
    not it raises, [gc] creates no entry, adds no member to any set, and
    leaves every string in place. *)
Theorem gc_only_removes (s : store) (keys tags : option (list string))
    (n : string) :
  let s' := (gc keys tags s).1 in
  (s !! n = None -> s' !! n = None) /\
  members n s' ⊆ members n s /\
  (is_str (s !! n) = true -> s' !! n = s !! n).
Proof.
  intros s'. subst s'. split_and!.
  - apply gc_keeps_absent.
  - destruct (gc_run keys tags s)
      as [ -> |(kl & tl & p & _ & _ & -> & Hshr & _)]; [done|].
    cbn [of_flag fst].
    rewrite (members_shrink n s _ _ _ (execute_shrink p s n Hshr)).
    case_bool_decide; set_solver.
  - intros Hstr. destruct (s !! n) as [[[v|ms] t]|] eqn:Hn; try done.
    by apply gc_str_kept.
Qed.

Lemma queue_all_nil f (l : list string) :
  (forall x, x ∈ l -> f x = Ok []) -> queue_all f l = Ok [].
Proof.
  induction l as [|x l IH]; intros Hf; [done|]. cbn.
  rewrite (Hf x) by by left. rewrite IH; [done|].
  intros y Hy. apply Hf. by right.
Qed.

Lemma gc_settled_noop_aux (s : store) :
  is_str (s !! CacheKeys) = false -> is_str (s !! Tags) = false ->
  settled s ->
  gc None None s = (s, Ok tt).
Proof.
  intros HK HT [Hkeys Htags]. unfold gc.
  rewrite (candidates_None _ _ _ (members_smembers _ _ HK)).
  rewrite (candidates_None _ _ _ (members_smembers _ _ HT)).
  rewrite queue_all_nil.
  2:{ intros k Hk. rewrite elem_of_elements in Hk.
      unfold gc_key_cmds. by rewrite Hkeys. }
  rewrite queue_all_nil; [done|].
  intros t Ht. rewrite elem_of_elements in Ht.
  pose proof (Htags t Ht) as Hne. unfold gc_tag_cmds, scard, smembers.
  unfold members in Hne.
  destruct (s !! keys_by_tag t) as [[[v|ms] ttl]|]; try done.
  rewrite decide_False; [done|]. intros Hsz.
  apply size_empty_iff in Hsz. apply Hne. set_solver.
Qed.

(** X15.  On a store with nothing to reconcile (every key listed in
    [CacheKeys] has an entry, every tag listed in [Tags] has a key) and
    whose roots hold no string, the full sweep [gc()] queues nothing,
    raises nothing and returns the store as it is. *)
Theorem gc_settled_is_noop (s : store) :
  is_str (s !! CacheKeys) = false -> is_str (s !! Tags) = false ->
  settled s ->
  gc None None s = (s, Ok tt).
Proof. apply gc_settled_noop_aux. Qed.

End with_clock_43.

Section example_44.

#[local] Existing Instance example_clock.

Lemma gc_settled_is_noop_witness :
  let s := (set "User:2" "foo" ["User"] None
              (set "User:1" "mitch" ["User"; "PremiumUser"] None ∅).1).1 in
  is_str (s !! CacheKeys) = false /\ is_str (s !! Tags) = false /\
  settled s /\ gc None None s = (s, Ok tt).
Proof.
  cbv zeta.
  assert (is_str ((set "User:2" "foo" ["User"] None
              (set "User:1" "mitch" ["User"; "PremiumUser"] None ∅).1).1
            !! CacheKeys) = false) as H1 by (vm_compute; reflexivity).
  assert (is_str ((set "User:2" "foo" ["User"] None
              (set "User:1" "mitch" ["User"; "PremiumUser"] None ∅).1).1
            !! Tags) = false) as H2 by (vm_compute; reflexivity).
  assert (settled (set "User:2" "foo" ["User"] None
              (set "User:1" "mitch" ["User"; "PremiumUser"] None ∅).1).1)
    as H3 by (apply (bool_decide_unpack _); vm_compute; exact I).
  split_and!; [exact H1|exact H2|exact H3|].
  exact (gc_settled_is_noop _ H1 H2 H3).
Defined.

End example_44.

Section with_clock_45.

Context {clk : Clock}.

(** ** The two directions of the index stay in step *)

Lemma gc_keeps_linked_aux (s : store) keys tags :
  linked s -> linked (gc keys tags s).1.
Proof.
  intros Hl.
  destruct (gc_run keys tags s)
    as [ -> |(kl & tl & p & _ & _ & -> & Hshr & HD & HR & Hread)]; [done|].
  cbn [of_flag fst]. intros k t.
  rewrite (members_shrink _ s _ _ _ (execute_shrink p s (tags_by_key k) Hshr)).
  rewrite (members_shrink _ s _ _ _ (execute_shrink p s (keys_by_tag t) Hshr)).
  assert (rems (tags_by_key k) p = ∅) as ->.
  { apply set_eq. intros m. rewrite elem_of_rems, HR. split; [|set_solver].
    intros [(_ & _ & [?|(? & ? & _ & _ & ?)])|(_ & _ & ?)]; clash. }
  assert (DEL (tags_by_key k) ∈ p <-> k ∈ kl /\ exists_ k s = false) as HDk.
  { rewrite HD. split.
    - intros [(key & Hk & Hex & Heq)|(? & _ & _ & ?)]; [|clash].
      by apply tags_by_key_inj in Heq as <-.
    - intros [Hk Hex]. left. eauto. }
  assert (DEL (keys_by_tag t) ∈ p -> members (keys_by_tag t) s = ∅) as HDt.
  { rewrite HD. intros [(? & _ & _ & ?)|(tag & _ & Hcard & Heq)]; [clash|].
    apply keys_by_tag_inj in Heq as <-.
    by apply scard_0, smembers_members in Hcard. }
  assert (k ∈ rems (keys_by_tag t) p <->
          k ∈ kl /\ exists_ k s = false /\ t ∈ members (tags_by_key k) s)
    as HRk.
  { rewrite elem_of_rems, HR. split.
    - intros [(Hk & Hex & [?|(tag & ts & Hts & Htag & Heq)])|(_ & _ & ?)];
        [clash| |clash].
      apply keys_by_tag_inj in Heq as <-.
      by rewrite (smembers_members _ _ _ Hts).
    - intros (Hk & Hex & Ht). left. split_and!; [done..|]. right.
      destruct (Hread k Hk Hex) as [ts Hts]. exists t, ts.
      split_and!; [done| |done].
      by rewrite <- (smembers_members _ _ _ Hts). }
  specialize (Hl k t).
  destruct (bool_decide (DEL (tags_by_key k) ∈ p)) eqn:Hdk;
    destruct (bool_decide (DEL (keys_by_tag t) ∈ p)) eqn:Hdt.
  - done.
  - apply bool_decide_eq_true in Hdk. apply HDk in Hdk as [Hk Hex].
    rewrite elem_of_difference, HRk. split; [set_solver|].
    intros [Hin Hr]. exfalso. apply Hr. split_and!; [done..|]. by apply Hl.
  - apply bool_decide_eq_true, HDt in Hdt.
    rewrite elem_of_difference. split; [|set_solver].
    intros [Hin _]. apply Hl in Hin. set_solver.
  - apply bool_decide_eq_false in Hdk. rewrite HDk in Hdk.
    rewrite !elem_of_difference, HRk. split.
    + intros [Hin _]. split; [by apply Hl|]. intros (? & ? & _). by apply Hdk.
    + intros [Hin _]. split; [by apply Hl|]. set_solver.
Qed.

(** X16.  If the two directions of the index agree (a tag is listed for
    a key exactly when the key is listed for the tag), they still agree
    after [gc], whatever its arguments, and after [get], with or without
    [gc]. *)
Theorem gc_keeps_linked (s : store) (keys tags : option (list string))
    (k : string) (g : bool) :
  linked s ->
  linked (gc keys tags s).1 /\ linked (TaggedCache.get k g s).1.
Proof.
  intros Hl. split; [by apply gc_keeps_linked_aux|].
  unfold TaggedCache.get. destruct (Redis.get k s) as [[v|]|]; try done.
  destruct g; [|done].
  pose proof (gc_keeps_linked_aux s (Some [k]) None Hl) as Hl'.
  by destruct (gc (Some [k]) None s) as [s' [[]|]].
Qed.

Lemma members_grow n (s s' : store) A :
  s' !! n = grow A (s !! n) -> is_str (s !! n) = false ->
  members n s' = members n s ∪ A.
Proof.
  unfold members, grow. intros -> Hstr.
  destruct (s !! n) as [[[v|ms] t]|]; cbn in *; try done.
  case_decide; [set_solver|]. set_solver.
Qed.

Lemma index_nameb_ne key n :
  index_nameb key = false -> index_nameb n = true -> n <> key.
Proof. intros Hk Hn ->. congruence. Qed.

Lemma set_keeps_linked_aux key value tags ttl (s : store) :
  index_ok s -> index_nameb key = false ->
  linked s -> linked (set key value tags ttl s).1.
Proof.
  intros Hok Hkey Hl k t.
  rewrite (members_grow (tags_by_key k) s _ _
             (set_lookup_other key value tags ttl s _
                (index_nameb_ne _ _ Hkey (index_nameb_tags_by_key k))))
    by (apply index_ok_lookup; auto with names).
  rewrite (members_grow (keys_by_tag t) s _ _
             (set_lookup_other key value tags ttl s _
                (index_nameb_ne _ _ Hkey (index_nameb_keys_by_tag t))))
    by (apply index_ok_lookup; auto with names).
  rewrite !elem_of_union, !set_adds_elem, (Hl k t). split.
  - intros [?|[[Heq Ht]|[[_ (? & _ & ?)]|[[? _]|[? _]]]]]; try clash; eauto.
    apply tags_by_key_inj in Heq as ->. right. right. left. eauto.
  - intros [?|[[? _]|[[-> (tag & Htag & Heq)]|[[? _]|[? _]]]]]; try clash; eauto.
    apply keys_by_tag_inj in Heq as ->. eauto.
Qed.

Lemma linked_empty : linked ∅.
Proof. intros k t. unfold members. by rewrite !lookup_empty. Qed.

Lemma linked_delete k (s : store) :
  index_nameb k = false -> linked s -> linked (delete k s).
Proof.
  intros Hk Hl k' t. unfold members.
  rewrite !lookup_delete_ne
    by (apply not_eq_sym, (index_nameb_ne k); auto with names).
  apply Hl.
Qed.

End with_clock_45.

Section example_46.

#[local] Existing Instance example_clock.

Lemma gc_keeps_linked_witness :
  let s := expired "User:1"
             (set "User:2" "foo" ["User"] None
                (set "User:1" "mitch" ["User"; "PremiumUser"] None ∅).1).1 in
  linked s /\
  (linked (gc None None s).1 /\ linked (TaggedCache.get "User:1" true s).1) /\
  get_tags "User:1" s = Ok {["User"; "PremiumUser"]} /\
  get_keys "User" s = Ok {["User:1"; "User:2"]} /\
  get_tags "User:1" (gc None None s).1 = Ok ∅ /\
  get_keys "User" (gc None None s).1 = Ok {["User:2"]} /\
  TaggedCache.get "User:1" true s = ((gc (Some ["User:1"]) None s).1, Ok None) /\
  get_tags "User:1" (TaggedCache.get "User:1" true s).1 = Ok ∅ /\
  get_keys "User" (TaggedCache.get "User:1" true s).1 = Ok {["User:2"]}.
Proof.
  cbv zeta.
  assert (linked (expired "User:1"
             (set "User:2" "foo" ["User"] None
                (set "User:1" "mitch" ["User"; "PremiumUser"] None ∅).1).1))
    as H.
  { apply linked_delete; [reflexivity|].
    apply set_keeps_linked_aux; [|reflexivity|].
    { apply (bool_decide_unpack _). vm_compute. exact I. }
    apply set_keeps_linked_aux; [|reflexivity|apply linked_empty].
    apply (bool_decide_unpack _). vm_compute. exact I. }
  split; [exact H|]. split.
  { exact (gc_keeps_linked _ None None "User:1" true H). }
  split_and!; vm_compute; reflexivity.
Defined.

End example_46.

Section with_clock_47.

Context {clk : Clock}.

(** X17.  On a store whose index names hold sets, [set] with a key that
    is not itself an index name, and [clear] of such a key, keep the two
    directions of the index in agreement. *)
Theorem set_and_clear_keep_linked (key value : string) (tags : list string)
    (ttl : option Z) (s : store) :
  index_ok s -> index_nameb key = false -> linked s ->
  linked (set key value tags ttl s).1 /\ linked (clear key s).1.
Proof.
  intros Hok Hkey Hl. split; [by apply set_keeps_linked_aux|].
  rewrite clear_unfold. by apply gc_keeps_linked_aux, linked_delete.
Qed.

End with_clock_47.

Section example_48.

#[local] Existing Instance example_clock.

Lemma set_and_clear_keep_linked_witness :
  let s := (set "User:2" "foo" ["User"] None
              (set "User:1" "mitch" ["User"; "PremiumUser"] None ∅).1).1 in
  index_ok s /\ index_nameb "User:1" = false /\ linked s /\
  (linked (set "User:1" "mitch" ["Admin"] None s).1 /\
   linked (clear "User:1" s).1) /\
  get_keys "User" s = Ok {["User:1"; "User:2"]} /\
  get_tags "User:1" s = Ok {["User"; "PremiumUser"]} /\
  get_tags "User:1" (set "User:1" "mitch" ["Admin"] None s).1
    = Ok {["User"; "PremiumUser"; "Admin"]} /\
  get_keys "Admin" (set "User:1" "mitch" ["Admin"] None s).1
    = Ok {["User:1"]} /\
  (clear "User:1" s).1 !! "User:1" = None /\
  get_keys "User" (clear "User:1" s).1 = Ok {["User:2"]} /\
  get_keys "PremiumUser" (clear "User:1" s).1 = Ok ∅ /\
  get_tags "User:1" (clear "User:1" s).1 = Ok ∅.
Proof.
  cbv zeta.
  assert (index_ok (set "User:2" "foo" ["User"] None
              (set "User:1" "mitch" ["User"; "PremiumUser"] None ∅).1).1)
    as H1 by (apply (bool_decide_unpack _); vm_compute; exact I).
  assert (index_nameb "User:1" = false) as H2 by reflexivity.
  assert (linked (set "User:2" "foo" ["User"] None
              (set "User:1" "mitch" ["User"; "PremiumUser"] None ∅).1).1)
    as H3.
  { apply set_keeps_linked_aux; [|reflexivity|].
    { apply (bool_decide_unpack _). vm_compute. exact I. }
    apply set_keeps_linked_aux; [|reflexivity|apply linked_empty].
    apply (bool_decide_unpack _). vm_compute. exact I. }
  split; [exact H1|]. split; [exact H2|]. split; [exact H3|]. split.
  { exact (set_and_clear_keep_linked "User:1" "mitch" ["Admin"] None _
             H1 H2 H3). }
  split_and!; vm_compute; reflexivity.
Defined.

End example_48.

Section with_clock_49.

Context {clk : Clock}.

(** ** Sweeps converge *)

(** A sweep writes under index names only. *)
Lemma gc_nonindex_kept keys tags (s : store) n :
  index_nameb n = false -> (gc keys tags s).1 !! n = s !! n.
Proof.
  intros Hn. apply index_nameb_false in Hn as (Hn1 & Hn2 & Hn3 & Hn4).
  destruct (gc_run keys tags s)
    as [ -> |(kl & tl & p & _ & _ & -> & Hshr & HD & HR & _)]; [done|].
  cbn [of_flag fst]. rewrite execute_shrink by done.
  rewrite <- (shrink_id (s !! n)) at 2. apply shrink_ext.
  - apply bool_decide_eq_false. rewrite HD.
    intros [(key & _ & _ & ?)|(tag & _ & _ & ?)];
      [by apply (Hn3 key)|by apply (Hn4 tag)].
  - intros m. rewrite elem_of_rems, HR. split; [|set_solver].
    intros [(_ & _ & [?|(tag & ? & _ & _ & ?)])|(_ & _ & ?)]; try done.
    by destruct (Hn4 tag).
Qed.

Lemma exists_lookup_eq n (s s' : store) :
  s' !! n = s !! n -> exists_ n s' = exists_ n s.
Proof. unfold exists_. by intros ->. Qed.

(** After one full sweep every key still listed in [CacheKeys] has an
    entry. *)
Lemma gc_full_no_orphan (s : store) :
  index_ok s ->
  (forall k, k ∈ members CacheKeys s -> index_nameb k = false) ->
  forall k, k ∈ members CacheKeys (gc None None s).1 ->
            k ∈ members CacheKeys s /\ exists_ k (gc None None s).1 = true.
Proof.
  intros Hok Hplain k Hk.
  assert (k ∈ members CacheKeys s /\ exists_ k s = true) as [HkK Hex].
  { destruct (gc_index_ok None None s Hok)
      as (kl & tl & p1 & p2 & Hkl & _ & Hp1 & Hp2 & Hgc).
    rewrite Hgc in Hk. cbn [fst] in Hk.
    rewrite (candidates_None _ _ _ (members_smembers _ _
               (index_ok_lookup _ _ Hok index_nameb_CacheKeys))) in Hkl.
    injection Hkl as <-.
    pose proof (gc_pipeline_shrinking s _ _ p1 p2 Hp1 Hp2) as Hshr.
    rewrite (members_shrink _ s _ _ _
               (execute_shrink _ s CacheKeys Hshr)) in Hk.
    case_bool_decide; [set_solver|].
    apply elem_of_difference in Hk as [HkK Hr]. split; [done|].
    destruct (exists_ k s) eqn:Hex; [done|]. exfalso. apply Hr.
    apply elem_of_rems, (gc_pipeline_SREM _ _ _ _ _ Hp1 Hp2). left.
    rewrite elem_of_elements. split_and!; [done..|by left]. }
  split; [done|]. rewrite <- Hex. apply exists_lookup_eq.
  by apply gc_nonindex_kept, Hplain.
Qed.

(** A full sweep over a store without orphans leaves neither an orphan
    nor a tag without keys. *)
Lemma gc_full_settles (s : store) :
  index_ok s ->
  (forall k, k ∈ members CacheKeys s ->
             index_nameb k = false /\ exists_ k s = true) ->
  settled (gc None None s).1.
Proof.
  intros Hok Hlive.
  destruct (gc_index_ok None None s Hok)
    as (kl & tl & p1 & p2 & Hkl & Htl & Hp1 & Hp2 & Hgc).
  rewrite (candidates_None _ _ _ (members_smembers _ _
             (index_ok_lookup _ _ Hok index_nameb_CacheKeys))) in Hkl.
  rewrite (candidates_None _ _ _ (members_smembers _ _
             (index_ok_lookup _ _ Hok index_nameb_Tags))) in Htl.
  injection Hkl as <-. injection Htl as <-.
  pose proof (gc_pipeline_shrinking s _ _ p1 p2 Hp1 Hp2) as Hshr.
  pose proof (fun n => gc_pipeline_DEL s _ _ p1 p2 Hp1 Hp2 n) as HD.
  pose proof (fun n m => gc_pipeline_SREM s _ _ p1 p2 Hp1 Hp2 n m) as HR.
  assert (forall m, m ∈ elements (members CacheKeys s) ->
                    exists_ m s = false -> False) as Hno.
  { intros m Hm Hex. rewrite elem_of_elements in Hm.
    destruct (Hlive m Hm) as [_ Hex']. congruence. }
  split.
  - intros k Hk.
    assert (k ∈ members CacheKeys s) as HkK.
    { pose proof (gc_only_removes_aux s None None CacheKeys). set_solver. }
    destruct (Hlive k HkK) as [Hplain Hex]. rewrite <- Hex.
    apply exists_lookup_eq. by apply gc_nonindex_kept.
  - intros t Ht. rewrite Hgc in *. cbn [fst] in *.
    rewrite (members_shrink _ s _ _ _
               (execute_shrink _ s Tags Hshr)) in Ht.
    case_bool_decide; [set_solver|].
    apply elem_of_difference in Ht as [HtT Hr].
    rewrite elem_of_rems, HR in Hr.
    assert (members (keys_by_tag t) s <> ∅) as Hne.
    { intros Hempty. apply Hr. right. rewrite elem_of_elements.
      split_and!; [done| |done]. apply scard_0.
      rewrite (members_smembers _ _
                 (index_ok_lookup _ _ Hok (index_nameb_keys_by_tag t))).
      by rewrite Hempty. }
    rewrite (members_shrink _ s _ _ _
               (execute_shrink _ s (keys_by_tag t) Hshr)).
    rewrite bool_decide_false.
    2:{ rewrite HD. intros [(? & _ & _ & ?)|(tag & _ & Hcard & Heq)]; [clash|].
        apply keys_by_tag_inj in Heq as <-.
        by apply scard_0, smembers_members in Hcard. }
    assert (rems (keys_by_tag t) (p1 ++ p2) = ∅) as ->.
    { apply set_eq. intros m. rewrite elem_of_rems, HR. split; [|set_solver].
      intros [(Hm & Hex & _)|(_ & _ & ?)]; [|clash].
      destruct (Hno m Hm Hex). }
    intros Hempty. apply Hne. set_solver.
Qed.

(** X18.  Two full sweeps settle the index: on a store whose index names
    hold sets and whose [CacheKeys] lists no index name, after [gc()] run
    twice every key listed in [CacheKeys] has an entry and every tag
    listed in [Tags] has a key, and a third [gc()] raises nothing and
    changes nothing.  (One sweep is not enough: it leaves the tags whose
    key sets it has itself emptied.) *)
Theorem gc_twice_settles (s : store) :
  index_ok s ->
  (forall k, k ∈ members CacheKeys s -> index_nameb k = false) ->
  let s2 := (gc None None (gc None None s).1).1 in
  settled s2 /\ gc None None s2 = (s2, Ok tt).
Proof.
  intros Hok Hplain s2.
  pose proof (index_ok_gc None None s Hok) as Hok1.
  pose proof (index_ok_gc None None _ Hok1) as Hok2.
  assert (settled s2) as Hset.
  { apply gc_full_settles; [done|]. intros k Hk.
    destruct (gc_full_no_orphan s Hok Hplain k Hk) as [HkK Hex].
    split; [by apply Hplain|done]. }
  split; [done|]. apply gc_settled_noop_aux; [..|done].
  - apply index_ok_lookup; auto with names.
  - apply index_ok_lookup; auto with names.
Qed.

End with_clock_49.

Section example_50.

#[local] Existing Instance example_clock.

Lemma gc_twice_settles_witness :
  let s := expired "k" (set "k" "v" ["A"] None ∅).1 in
  index_ok s /\
  (forall k, k ∈ members CacheKeys s -> index_nameb k = false) /\
  settled (gc None None (gc None None s).1).1 /\
  smembers Tags (gc None None s).1 = Ok {["A"]} /\
  smembers Tags (gc None None (gc None None s).1).1 = Ok ∅.
Proof.
  cbv zeta.
  assert (index_ok (expired "k" (set "k" "v" ["A"] None ∅).1)) as H1
    by (apply (bool_decide_unpack _); vm_compute; exact I).
  assert (forall k, k ∈ members CacheKeys
                      (expired "k" (set "k" "v" ["A"] None ∅).1) ->
                    index_nameb k = false) as H2.
  { refine (@bool_decide_unpack _
              (set_Forall_dec (fun k => index_nameb k = false) _) _).
    vm_compute. exact I. }
  split_and!; [exact H1|exact H2|..].
  - exact (proj1 (gc_twice_settles _ H1 H2)).
  - vm_compute. reflexivity.
  - vm_compute. reflexivity.
Defined.

End example_50.

Section with_clock_51.

Context {clk : Clock}.

(** ** A sweep with arguments stays within them *)

Lemma candidates_Some_ne (l : list string) root s :
  l <> [] -> candidates (Some l) root s = Ok l.
Proof. intros Hl. unfold candidates. cbn. by destruct l. Qed.

(** X19.  With both arguments given and not empty, [gc(keys, tags)]
    reads neither root and stays within its arguments: it writes under
    index names only; for a key outside [keys] it leaves the key's
    [tags-by-key] set as it is and changes the key's membership in
    [CacheKeys] and in every [keys-by-tag] set nowhere; for a tag outside
    [tags] it leaves the tag's membership in [Tags] as it is. *)
Theorem gc_stays_within_arguments (s : store) (kl tl : list string) :
  kl <> [] -> tl <> [] ->
  let s' := (gc (Some kl) (Some tl) s).1 in
  (forall n, index_nameb n = false -> s' !! n = s !! n) /\
  (forall k, k ∉ kl ->
     s' !! tags_by_key k = s !! tags_by_key k /\
     (k ∈ members CacheKeys s' <-> k ∈ members CacheKeys s) /\
     forall t, k ∈ members (keys_by_tag t) s' <->
               k ∈ members (keys_by_tag t) s) /\
  (forall t, t ∉ tl -> (t ∈ members Tags s' <-> t ∈ members Tags s)).
Proof.
  intros Hkl Htl s'. subst s'.
  split; [intros n Hn; by apply gc_nonindex_kept|].
  destruct (gc_run (Some kl) (Some tl) s)
    as [ -> |(kl' & tl' & p & Hkl' & Htl' & -> & Hshr & HD & HR & _)];
    [done|].
  rewrite candidates_Some_ne in Hkl' by done. injection Hkl' as <-.
  rewrite candidates_Some_ne in Htl' by done. injection Htl' as <-.
  cbn [of_flag fst]. split.
  - intros k Hk. split_and!.
    + rewrite execute_shrink by done.
      rewrite <- (shrink_id (s !! tags_by_key k)) at 2. apply shrink_ext.
      * apply bool_decide_eq_false. rewrite HD.
        intros [(key & Hin & _ & Heq)|(? & _ & _ & ?)]; [|clash].
        by apply tags_by_key_inj in Heq as <-.
      * intros m. rewrite elem_of_rems, HR. split; [|set_solver].
        intros [(_ & _ & [?|(? & ? & _ & _ & ?)])|(_ & _ & ?)]; clash.
    + rewrite (members_shrink _ s _ _ _ (execute_shrink p s CacheKeys Hshr)).
      rewrite bool_decide_false.
      2:{ rewrite HD. intros [(? & _ & _ & ?)|(? & _ & _ & ?)]; clash. }
      rewrite elem_of_difference, elem_of_rems, HR. split; [tauto|].
      intros Hin. split; [done|].
      intros [(? & _)|(_ & _ & ?)]; [done|clash].
    + intros t.
      rewrite (members_shrink _ s _ _ _
                 (execute_shrink p s (keys_by_tag t) Hshr)).
      case_bool_decide as Hd.
      * apply HD in Hd as [(? & _ & _ & ?)|(tag & _ & Hcard & Heq)]; [clash|].
        apply keys_by_tag_inj in Heq as <-.
        apply scard_0, smembers_members in Hcard. rewrite Hcard. done.
      * rewrite elem_of_difference, elem_of_rems, HR. split; [tauto|].
        intros Hin. split; [done|].
        intros [(? & _)|(_ & _ & ?)]; [done|clash].
  - intros t Ht.
    rewrite (members_shrink _ s _ _ _ (execute_shrink p s Tags Hshr)).
    rewrite bool_decide_false.
    2:{ rewrite HD. intros [(? & _ & _ & ?)|(? & _ & _ & ?)]; clash. }
    rewrite elem_of_difference, elem_of_rems, HR. split; [tauto|].
    intros Hin. split; [done|].
    intros [(_ & _ & [?|(? & ? & _ & _ & ?)])|(? & _)]; [clash|clash|done].
Qed.

End with_clock_51.

Section example_52.

#[local] Existing Instance example_clock.

Lemma gc_stays_within_arguments_witness :
  let s := expired "b" (expired "a"
             (set "b" "v" ["B"] None (set "a" "v" ["A"] None ∅).1).1) in
  ["a"] <> [] /\ ["A"] <> [] /\
  (gc (Some ["a"]) (Some ["A"]) s).1 !! tags_by_key "b"
  = s !! tags_by_key "b".
Proof.
  cbv zeta.
  assert (["a"] <> ([] : list string)) as H1 by discriminate.
  assert (["A"] <> ([] : list string)) as H2 by discriminate.
  split_and!; [exact H1|exact H2|].
  apply (proj2 (gc_stays_within_arguments _ ["a"] ["A"] H1 H2)).
  rewrite elem_of_cons, elem_of_nil. intros [H|[]]. discriminate H.
Defined.

End example_52.

Section with_clock_53.

Context {clk : Clock}.

(** X20.  On a store whose index names hold sets and in which the two
    directions of the index agree, [clear_tag(t)] leaves them in
    agreement, provided no member of the tag's key set is itself an index
    name: the sweep over the deleted keys undoes the links that the
    deletion of the key set left dangling. *)
Theorem clear_tag_keeps_linked (tag : string) (s : store) (ms : gset string) :
  index_ok s -> linked s ->
  get_keys tag s = Ok ms ->
  (forall k, k ∈ ms -> index_nameb k = false) ->
  linked (clear_tag tag s).1.
Proof.
  intros Hok Hl Hms Hplain. unfold clear_tag.
  unfold get_keys in Hms. rewrite Hms.
  set (p := map DEL (elements ms) ++ [DEL (keys_by_tag tag)]).
  destruct (execute_dels p s (clear_tag_cmds_dels tag (elements ms)))
    as [_ Hl1].
  assert (forall n, DEL n ∈ p <-> n ∈ ms \/ n = keys_by_tag tag) as HDp.
  { intros n. subst p.
    rewrite elem_of_app, list_elem_of_fmap, list_elem_of_singleton.
    setoid_rewrite elem_of_elements. split.
    - intros [(k & [= ->] & Hk)|[= ->]]; eauto.
    - intros [Hn| ->]; eauto. }
  set (s1 := (execute p s).1) in *.
  assert (index_ok s1) as Hok1.
  { apply index_ok_execute; [|done].
    eapply Forall_impl; [apply clear_tag_cmds_dels|]. by intros c [n ->]. }
  assert (forall k, members (tags_by_key k) s1 = members (tags_by_key k) s)
    as Htbk1.
  { intros k. apply members_lookup_eq. rewrite Hl1, bool_decide_false; [done|].
    rewrite HDp. intros [Hin|?]; [|clash].
    apply Hplain in Hin. by rewrite index_nameb_tags_by_key in Hin. }
  assert (forall t, members (keys_by_tag t) s1 =
                    if decide (t = tag) then ∅ else members (keys_by_tag t) s)
    as Hkbt1.
  { intros t. case_decide as Ht.
    - subst t. unfold members. rewrite Hl1, bool_decide_true; [done|].
      apply HDp. by right.
    - apply members_lookup_eq. rewrite Hl1, bool_decide_false; [done|].
      rewrite HDp. intros [Hin|Heq].
      + apply Hplain in Hin. by rewrite index_nameb_keys_by_tag in Hin.
      + by apply keys_by_tag_inj in Heq. }
  pose proof (smembers_members _ _ _ Hms) as Hmem.
  destruct (decide (ms = ∅)) as [ -> |Hne].
  { (* no member: the store is as it was on every index name *)
    apply gc_keeps_linked_aux. intros k t. rewrite Htbk1, Hkbt1.
    case_decide as Ht; [|apply Hl]. subst t. rewrite (Hl k tag), Hmem. done. }
  apply set_choose_L in Hne as [k0 Hk0].
  destruct (gc_index_ok (Some (elements ms)) None s1 Hok1)
    as (kl & tl & p1 & p2 & Hkl & _ & Hp1 & Hp2 & ->).
  rewrite (candidates_Some_elements ms _ _ k0 Hk0) in Hkl.
  injection Hkl as <-. cbn [fst].
  pose proof (gc_pipeline_shrinking s1 _ _ p1 p2 Hp1 Hp2) as Hshr.
  pose proof (fun n => gc_pipeline_DEL s1 _ _ p1 p2 Hp1 Hp2 n) as HD.
  pose proof (fun n m => gc_pipeline_SREM s1 _ _ p1 p2 Hp1 Hp2 n m) as HR.
  assert (forall k, k ∈ ms -> exists_ k s1 = false) as Hex.
  { intros k Hk. apply exists_None. rewrite Hl1, bool_decide_true; [done|].
    apply HDp. by left. }
  intros k t.
  rewrite (members_shrink _ s1 _ _ _
             (execute_shrink _ s1 (tags_by_key k) Hshr)).
  rewrite (members_shrink _ s1 _ _ _
             (execute_shrink _ s1 (keys_by_tag t) Hshr)).
  assert (rems (tags_by_key k) (p1 ++ p2) = ∅) as ->.
  { apply set_eq. intros m. rewrite elem_of_rems, HR. split; [|set_solver].
    intros [(_ & _ & [?|(? & ? & _ & _ & ?)])|(_ & _ & ?)]; clash. }
  assert (DEL (tags_by_key k) ∈ p1 ++ p2 <-> k ∈ ms) as HDk.
  { rewrite HD. split.
    - intros [(key & Hk & _ & Heq)|(? & _ & _ & ?)]; [|clash].
      apply tags_by_key_inj in Heq as <-. by rewrite elem_of_elements in Hk.
    - intros Hk. left. exists k. rewrite elem_of_elements. eauto. }
  assert (DEL (keys_by_tag t) ∈ p1 ++ p2 -> members (keys_by_tag t) s1 = ∅)
    as HDt.
  { rewrite HD. intros [(? & _ & _ & ?)|(tag' & _ & Hcard & Heq)]; [clash|].
    apply keys_by_tag_inj in Heq as <-.
    by apply scard_0, smembers_members in Hcard. }
  assert (k ∈ rems (keys_by_tag t) (p1 ++ p2) <->
          k ∈ ms /\ t ∈ members (tags_by_key k) s) as HRk.
  { rewrite elem_of_rems, HR, <- Htbk1. split.
    - intros [(Hk & _ & [?|(tag' & ts & Hts & Htag & Heq)])|(_ & _ & ?)];
        [clash| |clash].
      apply keys_by_tag_inj in Heq as <-. rewrite elem_of_elements in Hk.
      by rewrite (smembers_members _ _ _ Hts).
    - intros (Hk & Ht). left. rewrite elem_of_elements.
      split_and!; [done|by apply Hex|]. right. exists t, (members (tags_by_key k) s1).
      split_and!; [|done..]. apply members_smembers.
      apply index_ok_lookup; auto with names. }
  rewrite Htbk1.
  assert (t ∈ members (tags_by_key k) s -> k ∉ ms -> t <> tag) as Hother.
  { intros Ht Hk ->. apply Hk. rewrite <- Hmem. by apply Hl. }
  destruct (bool_decide (DEL (tags_by_key k) ∈ p1 ++ p2)) eqn:Hdk;
    destruct (bool_decide (DEL (keys_by_tag t) ∈ p1 ++ p2)) eqn:Hdt.
  - done.
  - apply bool_decide_eq_true, HDk in Hdk.
    rewrite elem_of_difference, HRk, Hkbt1. split; [set_solver|].
    intros [Hin Hr]. exfalso. case_decide; [set_solver|].
    apply Hr. split; [done|]. by apply Hl.
  - apply bool_decide_eq_false in Hdk. rewrite HDk in Hdk.
    apply bool_decide_eq_true, HDt in Hdt. rewrite Hkbt1 in Hdt.
    rewrite elem_of_difference. split; [|set_solver].
    intros [Hin _]. exfalso.
    rewrite decide_False in Hdt by by apply Hother.
    apply Hl in Hin. set_solver.
  - apply bool_decide_eq_false in Hdk. rewrite HDk in Hdk.
    rewrite !elem_of_difference, HRk, Hkbt1. split.
    + intros [Hin _]. rewrite decide_False by by apply Hother.
      split; [by apply Hl|]. tauto.
    + intros [Hin _]. split; [|set_solver].
      case_decide; [set_solver|]. by apply Hl.
Qed.

End with_clock_53.

Section example_54.

#[local] Existing Instance example_clock.

Lemma clear_tag_keeps_linked_witness :
  let s := (set "Post:1" "Hello" ["Post"; "Draft"] None ∅).1 in
  index_ok s /\ linked s /\ get_keys "Post" s = Ok {["Post:1"]} /\
  (forall k, k ∈ ({["Post:1"]} : gset string) -> index_nameb k = false) /\
  linked (clear_tag "Post" s).1.
Proof.
  cbv zeta.
  assert (index_ok (set "Post:1" "Hello" ["Post"; "Draft"] None ∅).1) as H1
    by (apply (bool_decide_unpack _); vm_compute; exact I).
  assert (linked (set "Post:1" "Hello" ["Post"; "Draft"] None ∅).1) as H2.
  { apply set_keeps_linked_aux; [|reflexivity|apply linked_empty].
    apply (bool_decide_unpack _). vm_compute. exact I. }
  assert (get_keys "Post" (set "Post:1" "Hello" ["Post"; "Draft"] None ∅).1
          = Ok {["Post:1"]}) as H3 by (vm_compute; reflexivity).
  assert (forall k, k ∈ ({["Post:1"]} : gset string) ->
                    index_nameb k = false) as H4.
  { intros k Hk. apply elem_of_singleton in Hk as ->. reflexivity. }
  split_and!; [exact H1|exact H2|exact H3|exact H4|].
  exact (clear_tag_keeps_linked "Post" _ _ H1 H2 H3 H4).
Defined.

End example_54.

Section invalidation_by_tag.

Context {clk : Clock}.

(** ** C4: invalidation by tag *)

(** C4.  From the empty store, [set("P1", v, tags=["Post"])] and
    [set("P2", v, tags=["Post"])] raise nothing and leave both values
    readable, both keys in [CacheKeys] and in the key set of [Post], and
    [Post] in [Tags] and listed for both keys.  [clear_tag("Post")] then
    raises nothing and leaves the store empty: the two primary entries
    and the key set of [Post] are deleted, and the sweep over the deleted
    keys has removed their [tags-by-key] sets, taken them out of
    [CacheKeys] and taken [Post] out of [Tags].  After it [get("P1")] and
    [get("P2")] return [None] and [get_keys("Post")] the empty set.

    The same holds in general: on any store whose index names hold sets,
    [clear_tag(t)] raises nothing and leaves the key set of [t] empty
    and, for each key that was in it, no primary entry, no tag listed,
    the key outside [CacheKeys], and [get] of the key returning
    [None]. *)
Theorem clear_tag_Post (v : string) :
  let r1 := set "P1" v ["Post"] None ∅ in
  let r2 := set "P2" v ["Post"] None r1.1 in
  let r3 := clear_tag "Post" r2.1 in
  let g1 := TaggedCache.get "P1" true r3.1 in
  let g2 := TaggedCache.get "P2" true g1.1 in
  (r1.2 = Ok tt /\ r2.2 = Ok tt /\
   TaggedCache.get "P1" false r2.1 = (r2.1, Ok (Some v)) /\
   TaggedCache.get "P2" false r2.1 = (r2.1, Ok (Some v)) /\
   get_keys "Post" r2.1 = Ok {["P1"; "P2"]} /\
   get_tags "P1" r2.1 = Ok {["Post"]} /\
   get_tags "P2" r2.1 = Ok {["Post"]} /\
   smembers CacheKeys r2.1 = Ok {["P1"; "P2"]} /\
   smembers Tags r2.1 = Ok {["Post"]}) /\
  (r3 = (∅, Ok tt) /\
   r3.1 !! "P1" = None /\ r3.1 !! "P2" = None /\
   r3.1 !! keys_by_tag "Post" = None /\
   get_tags "P1" r3.1 = Ok ∅ /\ get_tags "P2" r3.1 = Ok ∅ /\
   smembers CacheKeys r3.1 = Ok ∅ /\ smembers Tags r3.1 = Ok ∅) /\
  (g1 = (∅, Ok None) /\ g2 = (∅, Ok None) /\ get_keys "Post" g2.1 = Ok ∅) /\
  (forall (s : store) (t : string) (ms : gset string),
     index_ok s -> get_keys t s = Ok ms ->
     (clear_tag t s).2 = Ok tt /\
     get_keys t (clear_tag t s).1 = Ok ∅ /\
     forall k, k ∈ ms ->
       (clear_tag t s).1 !! k = None /\
       get_tags k (clear_tag t s).1 = Ok ∅ /\
       (exists K, smembers CacheKeys (clear_tag t s).1 = Ok K /\ k ∉ K) /\
       (TaggedCache.get k true (clear_tag t s).1).2 = Ok None).
Proof.
  cbv zeta. split; [|split; [|split]].
  - split_and!; vm_compute; reflexivity.
  - split_and!; vm_compute; reflexivity.
  - split_and!; vm_compute; reflexivity.
  - clear v. intros s t ms Hok Hms.
    destruct (sweeps_keep_index_ok_aux s t Hok) as [Hok' Hflag].
    destruct (clear_tag_reconciles t s ms Hok Hms) as (Hset & Hmem & _).
    split_and!; [done..|].
    intros k Hk. destruct (Hmem k Hk) as (Hgone & Htags & HCK).
    split_and!; [done..|].
    unfold TaggedCache.get, Redis.get. rewrite Hgone.
    destruct (gc_index_ok (Some [k]) None _ Hok')
      as (? & ? & ? & ? & _ & _ & _ & _ & ->). done.
Qed.

(** ** C10: [clear_tag] on a tag without keys sweeps everything *)

(** What the full sweep does to the two roots and to the orphans. *)
Lemma gc_full_roots (s : store) (K T : gset string) :
  index_ok s -> smembers CacheKeys s = Ok K -> smembers Tags s = Ok T ->
  (gc None None s).2 = Ok tt /\
  (exists K', smembers CacheKeys (gc None None s).1 = Ok K' /\
              forall k, k ∈ K' <-> k ∈ K /\ exists_ k s = true) /\
  (forall k, k ∈ K -> exists_ k s = false ->
     (gc None None s).1 !! tags_by_key k = None /\
     forall t, t ∈ members (tags_by_key k) s ->
               k ∉ members (keys_by_tag t) (gc None None s).1) /\
  (exists T', smembers Tags (gc None None s).1 = Ok T' /\
              forall t, t ∈ T' <-> t ∈ T /\ get_keys t s <> Ok ∅).
Proof.
  intros Hok HK HT.
  destruct (gc_index_ok None None s Hok)
    as (kl & tl & p1 & p2 & Hkl & Htl & Hp1 & Hp2 & ->).
  rewrite (candidates_None _ _ _ HK) in Hkl. injection Hkl as <-.
  rewrite (candidates_None _ _ _ HT) in Htl. injection Htl as <-.
  cbn [fst snd].
  pose proof (gc_pipeline_shrinking s _ _ p1 p2 Hp1 Hp2) as Hshr.
  pose proof (fun n => gc_pipeline_DEL s _ _ p1 p2 Hp1 Hp2 n) as HD.
  pose proof (fun n m => gc_pipeline_SREM s _ _ p1 p2 Hp1 Hp2 n m) as HR.
  unfold gc_dels in HD. unfold gc_rems in HR.
  setoid_rewrite elem_of_elements in HD.
  setoid_rewrite elem_of_elements in HR.
  split_and!; [done| | |].
  - eexists. split.
    { eapply smembers_shrink; [done|by apply execute_shrink]. }
    rewrite bool_decide_false.
    2:{ rewrite HD. intros [(? & _ & _ & ?)|(? & _ & _ & ?)]; clash. }
    intros k. rewrite elem_of_difference, elem_of_rems, HR. split.
    + intros [Hin Hr]. split; [done|].
      destruct (exists_ k s) eqn:Hex; [done|]. exfalso. apply Hr.
      left. eauto.
    + intros [Hin Hex]. split; [done|].
      intros [(_ & Hex' & _)|(_ & _ & ?)]; [congruence|clash].
  - intros k Hin Hex. split.
    + rewrite execute_shrink by done.
      rewrite bool_decide_true; [done|]. apply HD. left. eauto.
    + intros t Ht.
      rewrite (members_shrink _ s _ _ _
                 (execute_shrink _ s (keys_by_tag t) Hshr)).
      case_bool_decide; [set_solver|].
      rewrite elem_of_difference, elem_of_rems, HR. intros [_ Hr].
      apply Hr. left. split_and!; [done..|]. right.
      exists t, (members (tags_by_key k) s). split_and!; [|done..].
      apply members_smembers, index_ok_lookup; auto with names.
  - eexists. split.
    { eapply smembers_shrink; [done|by apply execute_shrink]. }
    rewrite bool_decide_false.
    2:{ rewrite HD. intros [(? & _ & _ & ?)|(? & _ & _ & ?)]; clash. }
    intros t. unfold get_keys.
    rewrite elem_of_difference, elem_of_rems, HR. split.
    + intros [Hin Hr]. split; [done|]. intros Hempty. apply Hr.
      right. by rewrite scard_0.
    + intros [Hin Hne]. split; [done|].
      intros [(_ & _ & [?|(? & ? & _ & _ & ?)])|(_ & Hcard & _)];
        [clash|clash|]. by apply scard_0 in Hcard.
Qed.

(** C10.  When the [keys-by-tag] set of [t] is empty or absent,
    [clear_tag(t)] collects no deleted keys, and [gc] takes the empty
    collection for an omitted argument: the call is the full sweep
    [gc()], run after the DEL of the tag's key set (which changes nothing
    when the set is absent), and neither a no-op nor a sweep over
    nothing.  On a store whose index names hold sets it raises nothing
    and reconciles the whole of both roots: [CacheKeys] keeps exactly its
    members that have an entry; every member without one loses its
    [tags-by-key] set and its place in the key set of each tag listed for
    it; [Tags] keeps exactly its members whose key set is not empty, so
    it loses [t] itself. *)
Theorem clear_tag_without_keys_is_full_sweep (t : string) (s : store)
    (K T : gset string) :
  index_ok s -> get_keys t s = Ok ∅ ->
  smembers CacheKeys s = Ok K -> smembers Tags s = Ok T ->
  let s0 := delete (keys_by_tag t) s in
  let r := clear_tag t s in
  r = gc None None s0 /\
  (s !! keys_by_tag t = None -> s0 = s /\ r = gc None None s) /\
  r.2 = Ok tt /\
  (exists K', smembers CacheKeys r.1 = Ok K' /\
              forall k, k ∈ K' <-> k ∈ K /\ exists_ k s0 = true) /\
  (forall k, k ∈ K -> exists_ k s0 = false ->
     r.1 !! tags_by_key k = None /\
     forall t', t' ∈ members (tags_by_key k) s ->
                k ∉ members (keys_by_tag t') r.1) /\
  (exists T', smembers Tags r.1 = Ok T' /\ (t ∉ T') /\
              (forall t', t' ∈ T' <-> t' ∈ T /\ get_keys t' s <> Ok ∅)).
Proof.
  intros Hok Hk HK HT s0 r.
  assert (r = gc None None s0) as Hr.
  { subst r s0. unfold get_keys in Hk. unfold clear_tag. rewrite Hk.
    by rewrite elements_empty. }
  assert (index_ok s0) as Hok0 by by apply index_ok_delete.
  assert (smembers CacheKeys s0 = Ok K) as HK0.
  { rewrite <- HK. apply smembers_lookup_eq, lookup_delete_ne. clash. }
  assert (smembers Tags s0 = Ok T) as HT0.
  { rewrite <- HT. apply smembers_lookup_eq, lookup_delete_ne. clash. }
  assert (forall t', get_keys t' s0 = get_keys t' s) as Hkeys.
  { intros t'. unfold get_keys. destruct (decide (t' = t)) as [ -> |Hne].
    - unfold get_keys in Hk. rewrite Hk. apply smembers_None.
      apply lookup_delete_eq.
    - apply smembers_lookup_eq, lookup_delete_ne.
      intros Heq. by apply keys_by_tag_inj in Heq. }
  assert (forall k, members (tags_by_key k) s0 = members (tags_by_key k) s)
    as Htags.
  { intros k. apply members_lookup_eq, lookup_delete_ne. clash. }
  destruct (gc_full_roots s0 K T Hok0 HK0 HT0)
    as (Hflag & HCK & Horph & (T' & HT' & HTags)).
  rewrite Hr. split_and!; [done| |done|done| |].
  - intros Habs. subst s0. by rewrite delete_id.
  - intros k Hin Hex. destruct (Horph k Hin Hex) as [Hgone Hun].
    split; [done|]. intros t' Ht'. apply Hun. by rewrite Htags.
  - exists T'. split; [done|]. split.
    + rewrite HTags, Hkeys. intros [_ Hne]. by apply Hne.
    + intros t'. by rewrite HTags, Hkeys.
Qed.

End invalidation_by_tag.

Section invalidation_examples.

#[local] Existing Instance example_clock.

Lemma clear_tag_without_keys_is_full_sweep_witness :
  let s := expired "User:1"
             (set "User:2" "foo" ["User"] None
                (set "User:1" "mitch" ["User"; "PremiumUser"] None ∅).1).1 in
  index_ok s /\ get_keys "Post" s = Ok ∅ /\
  smembers CacheKeys s = Ok {["User:1"; "User:2"]} /\
  smembers Tags s = Ok {["User"; "PremiumUser"]} /\
  clear_tag "Post" s = gc None None s /\
  (clear_tag "Post" s).2 = Ok tt /\
  smembers CacheKeys (clear_tag "Post" s).1 = Ok {["User:2"]} /\
  get_tags "User:1" (clear_tag "Post" s).1 = Ok ∅ /\
  get_keys "User" (clear_tag "Post" s).1 = Ok {["User:2"]}.
Proof.
  cbv zeta.
  assert (index_ok (expired "User:1"
             (set "User:2" "foo" ["User"] None
                (set "User:1" "mitch" ["User"; "PremiumUser"] None ∅).1).1))
    as H1 by (apply (bool_decide_unpack _); vm_compute; exact I).
  assert (get_keys "Post" (expired "User:1"
             (set "User:2" "foo" ["User"] None
                (set "User:1" "mitch" ["User"; "PremiumUser"] None ∅).1).1)
          = Ok ∅) as H2 by (vm_compute; reflexivity).
  assert (smembers CacheKeys (expired "User:1"
             (set "User:2" "foo" ["User"] None
                (set "User:1" "mitch" ["User"; "PremiumUser"] None ∅).1).1)
          = Ok {["User:1"; "User:2"]}) as H3 by (vm_compute; reflexivity).
  assert (smembers Tags (expired "User:1"
             (set "User:2" "foo" ["User"] None
                (set "User:1" "mitch" ["User"; "PremiumUser"] None ∅).1).1)
          = Ok {["User"; "PremiumUser"]}) as H4 by (vm_compute; reflexivity).
  destruct (clear_tag_without_keys_is_full_sweep "Post" _ _ _ H1 H2 H3 H4)
    as (_ & Habs & Hflag & _).
  split_and!; [exact H1|exact H2|exact H3|exact H4| |exact Hflag|..].
  - apply Habs. vm_compute. reflexivity.
  - vm_compute. reflexivity.
  - vm_compute. reflexivity.
  - vm_compute. reflexivity.
Defined.

(** The sweep is neither a no-op nor scoped to nothing: clearing the
    unused tag [Post] reclaims the expired key [User:1]. *)
Example clear_tag_without_keys_sweeps :
  let s := expired "User:1" (set "User:1" "mitch" ["User"] None ∅).1 in
  smembers CacheKeys s = Ok {["User:1"]} /\
  get_tags "User:1" s = Ok {["User"]} /\
  smembers CacheKeys (clear_tag "Post" s).1 = Ok ∅ /\
  get_tags "User:1" (clear_tag "Post" s).1 = Ok ∅.
Proof. cbv zeta. split_and!; vm_compute; reflexivity. Qed.

End invalidation_examples.
